(** * Voice assistant session core: a shallow embedding of useVoiceService.js

    The development follows the structure of the source file
    [front/src/components/useVoiceService.js]:

    - [Float]: rounding to the nearest binary64 and binary32 number, the
      arithmetic of every ECMAScript number and of a [Float32Array] element;
    - [JS]: the handful of ECMAScript primitives the code relies on
      ([Math.floor], [Math.round], typed-array reads and stores, [||]);
    - [Base64], [Wire]: the browser's [btoa] and [atob], and the byte layout
      of 16-bit samples around them;
    - [ResamplerProcessor]: the capture worklet (resampler and quantizer);
    - [PCMPlayer]: the playback worklet (dequantizer, resampler, FIFO, output
      callback);
    - [Session]: the controller (the closure state of [useVoiceService] and
      every handler it installs), written in state-passing style with a trace
      of the externally visible effects.

    Numbers.  Audio samples and sample rates are carried as rationals ([Q]):
    every finite float is one.  The quantizer and dequantizer are exact on
    32-bit float samples (a 24-bit significand times the 15-bit constant
    32767 fits a double, and a 16-bit integer divided by 2^15 fits a 32-bit
    float), so they are written without rounding.  The two resamplers round:
    each division, product, sum and difference of theirs is rounded to the
    nearest binary64 number, ties to even, and each stored sample to the
    nearest binary32 number, as the source does.  A quotient or product that
    overflows is an infinity; the only place where the resamplers can meet
    one is the array length, where it raises [RangeError], and this is the
    [None] of the model.  [NaN] and infinite samples are outside the
    model. *)

From Stdlib Require Import String Ascii.
From Stdlib Require Import ZArith QArith Qround Qminmax Qabs Qpower.
From Stdlib Require Import List Bool Lia Lqa.
Import ListNotations.

Local Open Scope Z_scope.

(* ------------------------------------------------------------------ *)
(** ** Binary floating point: rounding a rational to the nearest float *)

Module Float.

Definition pow2 (e : Z) : Q := (2 ^ e)%Q.

(** The binary exponent of a positive rational: [2^e <= x < 2^(e+1)]. *)
Definition ilog2 (x : Q) : Z :=
  let e := Z.log2 (Qnum x) - Z.log2 (Zpos (Qden x)) in
  if Qle_bool (pow2 e) x then e else e - 1.

(** The nearest integer, ties to the even one. *)
Definition rne (x : Q) : Z :=
  let f := Qfloor x in
  match (x - inject_Z f ?= 1 # 2)%Q with
  | Lt => f
  | Gt => f + 1
  | Eq => if Z.even f then f else f + 1
  end.

(** The exponent of the last place of [x] in a format of [prec] significant
    bits whose smallest subnormal is [2^emin]. *)
Definition exponent (prec emin : Z) (x : Q) : Z :=
  Z.max (ilog2 (Qabs x) - (prec - 1)) emin.

(** Round to nearest, ties to even, on an unbounded exponent range above. *)
Definition round (prec emin : Z) (x : Q) : Q :=
  if Qeq_bool x 0 then 0%Q
  else let q := exponent prec emin x in
       (inject_Z (rne (x / pow2 q)) * pow2 q)%Q.

(** binary64, the ECMAScript number type, and binary32, the element type of
    a [Float32Array]. *)
Definition fl64 : Q -> Q := round 53 (-1074).
Definition fl32 : Q -> Q := round 24 (-149).

(** An exact result rounds to a finite binary64 number when it is below
    the midpoint between the largest one and [2^1024]. *)
Definition finite (x : Q) : bool :=
  negb (Qle_bool (pow2 1024 - pow2 970) (Qabs x)).

(** The number an exact result becomes; [None] stands for an infinity. *)
Definition number (x : Q) : option Q :=
  if finite x then Some (fl64 x) else None.

End Float.

(* ------------------------------------------------------------------ *)
(** ** ECMAScript primitives used by the source *)

Module JS.

Definition Math_floor (x : Q) : Z := Qfloor x.
Definition Math_ceil (x : Q) : Z := Qceiling x.

(** [Math.round] rounds half-way cases towards plus infinity. *)
Definition Math_round (x : Q) : Z := Qfloor (x + (1 # 2))%Q.

Definition Math_min (x y : Q) : Q := Qmin x y.
Definition Math_max (x y : Q) : Q := Qmax x y.

(** Truncation towards zero, the first step of every integer conversion. *)
Definition truncate (x : Q) : Z := Z.quot (Qnum x) (Zpos (Qden x)).

(** [ToInt16]: reduce modulo 2^16 into the signed range. *)
Definition ToInt16 (n : Z) : Z :=
  let m := n mod 65536 in
  if 32768 <=? m then m - 65536 else m.

(** A store of a number into an [Int16Array] element. *)
Definition Int16_store (x : Q) : Z := ToInt16 (truncate x).

(** Reading [a[i]] for an integer [i]: [undefined] outside the array. *)
Definition get {A : Type} (a : list A) (i : Z) : option A :=
  if i <? 0 then None else nth_error a (Z.to_nat i).

(** [v || d] on a possibly undefined number: [undefined] and [0] are falsy. *)
Definition or_else (v : option Q) (d : Q) : Q :=
  match v with
  | Some x => if Qeq_bool x 0 then d else x
  | None => d
  end.

(** A loop over [0 <= i < n] that stores [f i] at index [i] of a fresh
    array of length [n]. *)
Definition tabulate {A : Type} (n : Z) (f : Z -> A) : list A :=
  map (fun i => f (Z.of_nat i)) (seq 0 (Z.to_nat n)).

(** [x / y] on finite numbers with [x <> 0] or [y <> 0]: an infinity when
    [y] is zero or the quotient overflows. *)
Definition divide (x y : Q) : option Q :=
  if Qeq_bool y 0 then None else Float.number (x / y).

(** [ToIndex], the length check of [new Float32Array(n)] on an integral
    [n]: a negative length or one above 2^53 - 1 raises [RangeError].  (An
    engine also raises it for a length it cannot allocate; the model
    assumes the memory is there.) *)
Definition ToIndex (n : Z) : option Z :=
  if (n <? 0) || (9007199254740991 <? n) then None else Some n.

(** A store of a number into a [Float32Array] element. *)
Definition Float32_store (x : Q) : Q := Float.fl32 x.

End JS.

(* ------------------------------------------------------------------ *)
(** ** The browser's base64 functions

    [btoa] and [atob] are built-ins of the browser, not code of the
    repository; they are modelled after their definition (RFC 4648 encoding
    with padding; the forgiving decoder of the WHATWG Infra standard). *)

Module Base64.

Definition alphabet : string :=
  "ABCDEFGHIJKLMNOPQRSTUVWXYZabcdefghijklmnopqrstuvwxyz0123456789+/".

Definition pad : ascii := "="%char.

Definition encode_char (n : Z) : ascii :=
  match String.get (Z.to_nat n) alphabet with
  | Some c => c
  | None => pad
  end.

Fixpoint index_from (c : ascii) (s : string) (i : Z) : option Z :=
  match s with
  | EmptyString => None
  | String d rest => if Ascii.eqb c d then Some i else index_from c rest (i + 1)
  end.

Definition decode_char (c : ascii) : option Z := index_from c alphabet 0.

(** Three bytes give four 6-bit groups; a remainder of one or two bytes
    gives two or three groups, the last one filled with zero bits. *)
Fixpoint sextets (bytes : list Z) : list Z :=
  match bytes with
  | a :: b :: c :: rest =>
      Z.shiftr a 2
      :: Z.lor (Z.shiftl (Z.land a 3) 4) (Z.shiftr b 4)
      :: Z.lor (Z.shiftl (Z.land b 15) 2) (Z.shiftr c 6)
      :: Z.land c 63
      :: sextets rest
  | [a; b] =>
      [Z.shiftr a 2;
       Z.lor (Z.shiftl (Z.land a 3) 4) (Z.shiftr b 4);
       Z.shiftl (Z.land b 15) 2]
  | [a] => [Z.shiftr a 2; Z.shiftl (Z.land a 3) 4]
  | [] => []
  end.

Definition padding (n : nat) : list ascii :=
  match (n mod 3)%nat with
  | 1%nat => [pad; pad]
  | 2%nat => [pad]
  | _ => []
  end.

Definition is_byte (b : Z) : bool := (0 <=? b) && (b <? 256).

(** [btoa]: the argument is a binary string, given by its code units; a
    code unit above 255 raises [InvalidCharacterError] ([None]). *)
Definition btoa (bin : list Z) : option string :=
  if forallb is_byte bin then
    Some (string_of_list_ascii
            (map encode_char (sextets bin) ++ padding (List.length bin)))
  else None.

(** Four 6-bit groups give three bytes; two or three remaining groups give
    one or two bytes, their spare low bits being dropped. *)
Fixpoint octets (groups : list Z) : list Z :=
  match groups with
  | s0 :: s1 :: s2 :: s3 :: rest =>
      Z.lor (Z.shiftl s0 2) (Z.shiftr s1 4)
      :: Z.lor (Z.shiftl (Z.land s1 15) 4) (Z.shiftr s2 2)
      :: Z.lor (Z.shiftl (Z.land s2 3) 6) s3
      :: octets rest
  | [s0; s1; s2] =>
      [Z.lor (Z.shiftl s0 2) (Z.shiftr s1 4);
       Z.lor (Z.shiftl (Z.land s1 15) 4) (Z.shiftr s2 2)]
  | [s0; s1] => [Z.lor (Z.shiftl s0 2) (Z.shiftr s1 4)]
  | _ => []
  end.

(** ASCII whitespace: TAB, LF, FF, CR and SPACE. *)
Definition is_whitespace (c : ascii) : bool :=
  let n := nat_of_ascii c in
  (n =? 9)%nat || (n =? 10)%nat || (n =? 12)%nat || (n =? 13)%nat
  || (n =? 32)%nat.

(** When the length is a multiple of four, one or two trailing [=] are
    removed. *)
Definition remove_padding (cs : list ascii) : list ascii :=
  if (List.length cs mod 4 =? 0)%nat then
    match rev cs with
    | c1 :: c2 :: r =>
        if Ascii.eqb c1 pad then
          if Ascii.eqb c2 pad then rev r else rev (c2 :: r)
        else cs
    | _ => cs
    end
  else cs.

Fixpoint decode_chars (cs : list ascii) : option (list Z) :=
  match cs with
  | [] => Some []
  | c :: rest =>
      match decode_char c, decode_chars rest with
      | Some v, Some vs => Some (v :: vs)
      | _, _ => None
      end
  end.

(** [atob]: the binary string as the list of its code units, or [None]
    when the decoder raises [InvalidCharacterError]. *)
Definition atob (data : string) : option (list Z) :=
  let cs := filter (fun c => negb (is_whitespace c)) (list_ascii_of_string data) in
  let cs := remove_padding cs in
  if (List.length cs mod 4 =? 1)%nat then None
  else
    match decode_chars cs with
    | Some groups => Some (octets groups)
    | None => None
    end.

End Base64.

(* ------------------------------------------------------------------ *)
(** ** 16-bit PCM on the wire *)

Module Wire.
Import JS.

(** The bytes of an [Int16Array]'s buffer as a [Uint8Array] view shows
    them on a little-endian platform: low byte first. *)
Definition Int16_bytes (v : Z) : list Z :=
  let u := v mod 65536 in [Z.land u 255; Z.shiftr u 8].

Definition Uint8Array_of_Int16Array (i16 : list Z) : list Z :=
  flat_map Int16_bytes i16.

(** The body of the capture port handler after its guard:
    [btoa(String.fromCharCode.apply(null, new Uint8Array(event.data)))].
    [String.fromCharCode] maps each byte to the code unit of the same value;
    the limit an engine puts on the number of arguments of [apply] is not
    part of the model (a frame is one render quantum, a few hundred bytes). *)
Definition encode_frame (i16 : list Z) : option string :=
  Base64.btoa (Uint8Array_of_Int16Array i16).

(** The loop of [pushTtsChunkBase64]: [i16[i / 2] = (hi << 8) | lo] for
    [i = 0, 2, 4, ...].  The array has [floor(len / 2)] elements, so the
    store for a last unpaired byte falls outside it and is ignored. *)
Fixpoint decode_pairs (bin : list Z) : list Z :=
  match bin with
  | lo :: hi :: rest => ToInt16 (Z.lor (Z.shiftl hi 8) lo) :: decode_pairs rest
  | _ => []
  end.

(** [atob] followed by the loop. *)
Definition decode_chunk (b64 : string) : option (list Z) :=
  match Base64.atob b64 with
  | Some bin => Some (decode_pairs bin)
  | None => None
  end.

End Wire.

(* ------------------------------------------------------------------ *)
(** ** The capture worklet: class ResamplerProcessor *)

Module ResamplerProcessor.
Import JS.

(** [float32ToInt16]: [buf[l] = Math.min(1, buffer[l]) * 0x7FFF]. *)
Definition quantize (x : Q) : Z := Int16_store (Math_min 1 x * 32767)%Q.

Definition float32ToInt16 (buffer : list Q) : list Z := map quantize buffer.

(** The body of the loop of [resample]: what is stored in [result[i]]. *)
Definition resample_at (audioBuffer : list Q) (ratio : Q) (i : Z) : Q :=
  let pos := Float.fl64 (inject_Z i / ratio) in
  let low := Math_floor pos in
  let high := Math_ceil pos in
  let lv := or_else (get audioBuffer low) 0 in
  let hv := or_else (get audioBuffer high) 0 in
  Float32_store
    (Float.fl64
       (lv + Float.fl64 (Float.fl64 (hv - lv) * Float.fl64 (pos - inject_Z low)))).

(** [resample]; [None] is the [RangeError] of [new Float32Array(newLength)].
    When [ratio] is an infinity, [audioBuffer.length * ratio] is [NaN] for an
    empty buffer, which [Math.round] keeps and the array constructor reads
    as length 0, and an infinity otherwise. *)
Definition resample (audioBuffer : list Q) (fromSampleRate toSampleRate : Q)
  : option (list Q) :=
  if Qeq_bool fromSampleRate toSampleRate then Some audioBuffer
  else
    match divide toSampleRate fromSampleRate with
    | None => if Nat.eqb (length audioBuffer) 0 then Some [] else None
    | Some ratio =>
        match Float.number (inject_Z (Z.of_nat (length audioBuffer)) * ratio) with
        | None => None
        | Some scaled =>
            match ToIndex (Math_round scaled) with
            | None => None
            | Some newLength =>
                Some (tabulate newLength (resample_at audioBuffer ratio))
            end
        end
    end.

(** [process]: one render quantum of the first input channel, when there
    is one, is resampled from the context rate [sampleRate] and posted as
    16-bit samples.  The result is the posted frame: there is none without
    an input, and none when [resample] throws. *)
Definition process (sampleRate targetSampleRate : Q)
           (input : option (list Q)) : option (list Z) :=
  match input with
  | Some channel =>
      match resample channel sampleRate targetSampleRate with
      | Some resampled => Some (float32ToInt16 resampled)
      | None => None
      end
  | None => None
  end.

End ResamplerProcessor.

(* ------------------------------------------------------------------ *)
(** ** The playback worklet: class PCMPlayer *)

Module PCMPlayer.
Import JS.

(** Messages the control context posts to the worklet port.  The payload
    of a chunk is the [ArrayBuffer] of an [Int16Array], read back through
    an [Int16Array] view: it is carried as the list of its elements. *)
Inductive msg : Type :=
| chunk (data : list Z)
| end_
| other.

Record state : Type := mk {
  inputRate : Q;
  buffer : list Q;
  ended : bool
}.

(** The constructor with [processorOptions.inputSampleRate]. *)
Definition new (inputSampleRate : Q) : state :=
  mk inputSampleRate [] false.

(** [Math.max(-1, Math.min(1, i16[i] / 32768))]. *)
Definition dequantize (q : Z) : Q :=
  Math_max (-1) (Math_min 1 (inject_Z q / 32768))%Q.

Definition enqueue (f32 : list Q) (st : state) : state :=
  mk (inputRate st) (buffer st ++ f32) (ended st).

(** The body of the loop of [resampleLinear]: what is stored in [out[i]]. *)
Definition resampleLinear_at (input : list Q) (ratio : Q) (i : Z) : Q :=
  let pos := Float.fl64 (inject_Z i / ratio) in
  let idx := Math_floor pos in
  let frac := Float.fl64 (pos - inject_Z idx) in
  let s0 := or_else (get input idx) 0 in
  let s1 := or_else (get input (idx + 1)) s0 in
  Float32_store (Float.fl64 (s0 + Float.fl64 (Float.fl64 (s1 - s0) * frac))).

(** [resampleLinear]; [None] is the [RangeError] of
    [new Float32Array(outLen)], as in the capture worklet. *)
Definition resampleLinear (input : list Q) (from to : Q) : option (list Q) :=
  if Qeq_bool from to then Some input
  else
    match divide to from with
    | None => if Nat.eqb (length input) 0 then Some [] else None
    | Some ratio =>
        match Float.number (inject_Z (Z.of_nat (length input)) * ratio) with
        | None => None
        | Some scaled =>
            match ToIndex (Math_floor scaled) with
            | None => None
            | Some outLen => Some (tabulate outLen (resampleLinear_at input ratio))
            end
        end
    end.

(** [this.port.onmessage]; [sampleRate] is the global of the worklet scope.
    A chunk whose resampling throws leaves the player as it was. *)
Definition onmessage (sampleRate : Q) (m : msg) (st : state) : state :=
  match m with
  | chunk i16 =>
      let f32 := map dequantize i16 in
      match resampleLinear f32 (inputRate st) sampleRate with
      | Some res => enqueue res st
      | None => st
      end
  | end_ => mk (inputRate st) (buffer st) true
  | other => st
  end.

(** The result of one output callback: the block written to
    [outputs[0][0]] and whether [{type: 'ended'}] was posted. *)
Record output : Type := mkOut {
  block : list Q;
  posted_ended : bool
}.

(** [process] for an output block of [n] samples. *)
Definition process (n : nat) (st : state) : output * state :=
  if (n <=? length (buffer st))%nat then
    (mkOut (firstn n (buffer st)) false,
     mk (inputRate st) (skipn n (buffer st)) (ended st))
  else
    (mkOut (buffer st ++ repeat 0%Q (n - length (buffer st))) (ended st),
     mk (inputRate st) [] false).

(** The life of the worklet: port messages and output callbacks, in the
    order the audio thread handles them; [run] collects what each callback
    produced. *)
Inductive event : Type :=
| message (m : msg)
| render (n : nat).

Fixpoint run (sampleRate : Q) (evs : list event) (st : state)
  : list output * state :=
  match evs with
  | [] => ([], st)
  | message m :: rest => run sampleRate rest (onmessage sampleRate m st)
  | render n :: rest =>
      let (o, st1) := process n st in
      let (os, st2) := run sampleRate rest st1 in
      (o :: os, st2)
  end.

(** The number of ['ended'] notifications among outputs, and of ['end']
    messages among events. *)
Definition notifications (os : list output) : nat :=
  List.length (filter posted_ended os).

Definition is_end (e : event) : bool :=
  match e with
  | message end_ => true
  | _ => false
  end.

Definition end_markers (evs : list event) : nat :=
  List.length (filter is_end evs).

End PCMPlayer.

(* ------------------------------------------------------------------ *)
(** ** The controller: the closure of useVoiceService

    Every handler runs to completion on the state it is given.  The
    suspension points of the asynchronous handlers (loading a worklet module,
    the microphone permission prompt) are not interleaving points of the
    model; the outcome of the permission prompt is an input of the event that
    reaches it.  Events of a connection are taken to be those of the
    connection the [socket] variable refers to. *)

Module Session.

Inductive Status : Type :=
| idle | connecting | listening | processing | speaking.

(** [WebSocket.readyState]. *)
Inductive ReadyState : Type := CONNECTING | OPEN | CLOSING | CLOSED.

(** A parsed inbound message, by its [type] field; [unrecognized] stands
    for every other value, which the [switch] ignores. *)
Inductive Message : Type :=
| stt_end
| final_answer (data : string)
| tts_chunk (data : string)
| tts_end
| error (message : string)
| unrecognized.

(** What the controller does to the outside world. *)
Inductive Effect : Type :=
| WebSocket_new
| socket_close
| socket_send (b64 : string)
| track_stop
| userSourceNode_disconnect
| userWorkletNode_disconnect
| ttsWorkletNode_disconnect
| ttsWorkletNode_postMessage (m : PCMPlayer.msg)
| alert.

(** The microphone stream: whether it is [active], and the [enabled] flag
    of its tracks. *)
Record MediaStream : Type := mkStream {
  active : bool;
  enabled : bool
}.

(** The reactive and internal variables of the closure; a node variable is
    [true] when it holds a node and [false] when it is [null]. *)
Record t : Type := mk {
  status : Status;
  finalAnswer : string;
  userAnalyser : bool;
  aiAnalyser : bool;
  socket : option ReadyState;
  audioContext : bool;
  userSourceNode : bool;
  userWorkletNode : bool;
  mediaStream : option MediaStream;
  ttsWorkletNode : bool;
  sttLocked : bool;
  ttsPlaying : bool;
  trace : list Effect
}.

Definition init : t :=
  mk idle "" false false None false false false None false false false [].

Definition set_status (v : Status) (s : t) : t :=
  mk v (finalAnswer s) (userAnalyser s) (aiAnalyser s) (socket s)
     (audioContext s) (userSourceNode s) (userWorkletNode s) (mediaStream s)
     (ttsWorkletNode s) (sttLocked s) (ttsPlaying s) (trace s).
Definition set_finalAnswer (v : string) (s : t) : t :=
  mk (status s) v (userAnalyser s) (aiAnalyser s) (socket s)
     (audioContext s) (userSourceNode s) (userWorkletNode s) (mediaStream s)
     (ttsWorkletNode s) (sttLocked s) (ttsPlaying s) (trace s).
Definition set_userAnalyser (v : bool) (s : t) : t :=
  mk (status s) (finalAnswer s) v (aiAnalyser s) (socket s)
     (audioContext s) (userSourceNode s) (userWorkletNode s) (mediaStream s)
     (ttsWorkletNode s) (sttLocked s) (ttsPlaying s) (trace s).
Definition set_aiAnalyser (v : bool) (s : t) : t :=
  mk (status s) (finalAnswer s) (userAnalyser s) v (socket s)
     (audioContext s) (userSourceNode s) (userWorkletNode s) (mediaStream s)
     (ttsWorkletNode s) (sttLocked s) (ttsPlaying s) (trace s).
Definition set_socket (v : option ReadyState) (s : t) : t :=
  mk (status s) (finalAnswer s) (userAnalyser s) (aiAnalyser s) v
     (audioContext s) (userSourceNode s) (userWorkletNode s) (mediaStream s)
     (ttsWorkletNode s) (sttLocked s) (ttsPlaying s) (trace s).
Definition set_audioContext (v : bool) (s : t) : t :=
  mk (status s) (finalAnswer s) (userAnalyser s) (aiAnalyser s) (socket s)
     v (userSourceNode s) (userWorkletNode s) (mediaStream s)
     (ttsWorkletNode s) (sttLocked s) (ttsPlaying s) (trace s).
Definition set_userSourceNode (v : bool) (s : t) : t :=
  mk (status s) (finalAnswer s) (userAnalyser s) (aiAnalyser s) (socket s)
     (audioContext s) v (userWorkletNode s) (mediaStream s)
     (ttsWorkletNode s) (sttLocked s) (ttsPlaying s) (trace s).
Definition set_userWorkletNode (v : bool) (s : t) : t :=
  mk (status s) (finalAnswer s) (userAnalyser s) (aiAnalyser s) (socket s)
     (audioContext s) (userSourceNode s) v (mediaStream s)
     (ttsWorkletNode s) (sttLocked s) (ttsPlaying s) (trace s).
Definition set_mediaStream (v : option MediaStream) (s : t) : t :=
  mk (status s) (finalAnswer s) (userAnalyser s) (aiAnalyser s) (socket s)
     (audioContext s) (userSourceNode s) (userWorkletNode s) v
     (ttsWorkletNode s) (sttLocked s) (ttsPlaying s) (trace s).
Definition set_ttsWorkletNode (v : bool) (s : t) : t :=
  mk (status s) (finalAnswer s) (userAnalyser s) (aiAnalyser s) (socket s)
     (audioContext s) (userSourceNode s) (userWorkletNode s) (mediaStream s)
     v (sttLocked s) (ttsPlaying s) (trace s).
Definition set_sttLocked (v : bool) (s : t) : t :=
  mk (status s) (finalAnswer s) (userAnalyser s) (aiAnalyser s) (socket s)
     (audioContext s) (userSourceNode s) (userWorkletNode s) (mediaStream s)
     (ttsWorkletNode s) v (ttsPlaying s) (trace s).
Definition set_ttsPlaying (v : bool) (s : t) : t :=
  mk (status s) (finalAnswer s) (userAnalyser s) (aiAnalyser s) (socket s)
     (audioContext s) (userSourceNode s) (userWorkletNode s) (mediaStream s)
     (ttsWorkletNode s) (sttLocked s) v (trace s).
(** Effects are appended in the order they happen. *)
Definition emit (e : Effect) (s : t) : t :=
  mk (status s) (finalAnswer s) (userAnalyser s) (aiAnalyser s) (socket s)
     (audioContext s) (userSourceNode s) (userWorkletNode s) (mediaStream s)
     (ttsWorkletNode s) (sttLocked s) (ttsPlaying s) (trace s ++ [e]).

Definition Status_eqb (a b : Status) : bool :=
  match a, b with
  | idle, idle | connecting, connecting | listening, listening
  | processing, processing | speaking, speaking => true
  | _, _ => false
  end.

(** [socket && socket.readyState === WebSocket.OPEN]. *)
Definition socket_is_open (s : t) : bool :=
  match socket s with
  | Some OPEN => true
  | _ => false
  end.

(** [track.enabled = v] on every track of the stream. *)
Definition set_tracks_enabled (v : bool) (s : t) : t :=
  match mediaStream s with
  | Some m => set_mediaStream (Some (mkStream (active m) v)) s
  | None => s
  end.

(** 3.3 *)
Definition stopListening (s : t) : t := set_tracks_enabled false s.

(** 4: the teardown routine. *)
Definition stopSession (s : t) : t :=
  if Status_eqb (status s) idle then s
  else
    let s := stopListening s in
    let s := match socket s with
             | Some _ => set_socket None (emit socket_close s)
             | None => s
             end in
    let s := match mediaStream s with
             | Some _ => set_mediaStream None (emit track_stop s)
             | None => s
             end in
    let s := if userSourceNode s
             then set_userSourceNode false (emit userSourceNode_disconnect s)
             else s in
    let s := if userWorkletNode s
             then set_userWorkletNode false (emit userWorkletNode_disconnect s)
             else s in
    let s := if ttsWorkletNode s
             then set_ttsWorkletNode false (emit ttsWorkletNode_disconnect s)
             else s in
    let s := set_sttLocked false s in
    let s := set_ttsPlaying false s in
    let s := set_status idle s in
    let s := set_userAnalyser false s in
    set_aiAnalyser false s.

(** The capture port handler installed by [startListening]; [frame] is
    the [Int16Array] whose buffer the capture worklet posted. *)
Definition userWorkletNode_onmessage (frame : list Z) (s : t) : t :=
  if sttLocked s || negb (socket_is_open s) then s
  else
    match Wire.encode_frame frame with
    | Some b64 => emit (socket_send b64) s
    | None => s
    end.

(** 3.2; [granted] is the outcome of [getUserMedia] and of the set-up of
    the capture graph, consulted only when no active stream is held. *)
Definition startListening (granted : bool) (s : t) : t :=
  if sttLocked s || negb (socket_is_open s) then s
  else
    let s := set_status listening s in
    let s := set_finalAnswer "" s in
    let reuse := match mediaStream s with
                 | Some m => active m
                 | None => false
                 end in
    if reuse then set_tracks_enabled true s
    else if granted then
      let s := set_mediaStream (Some (mkStream true true)) s in
      let s := set_userSourceNode true s in
      let s := set_userAnalyser true s in
      let s := set_userWorkletNode true s in
      set_tracks_enabled true s
    else
      (* catch *)
      stopSession (emit alert s).

(** The playback port handler installed by [initTtsPlayer]. *)
Definition ttsWorkletNode_onmessage (granted : bool) (s : t) : t :=
  let s := set_ttsPlaying false s in
  let s := set_sttLocked false s in
  if socket_is_open s then startListening granted s
  else stopSession s.

(** 3.4 *)
Definition initTtsPlayer (s : t) : t :=
  if ttsWorkletNode s then s
  else
    let s := set_ttsWorkletNode true s in
    set_aiAnalyser true s.

(** 3.5; when [atob] raises, the handler is left with the state as it is. *)
Definition pushTtsChunkBase64 (b64 : string) (s : t) : t :=
  if negb (ttsWorkletNode s) then s
  else
    match Wire.decode_chunk b64 with
    | None => s
    | Some i16 =>
        let s := emit (ttsWorkletNode_postMessage (PCMPlayer.chunk i16)) s in
        if ttsPlaying s then s
        else set_ttsPlaying true (set_status speaking s)
    end.

(** 3.6 *)
Definition endTtsStream (s : t) : t :=
  if ttsWorkletNode s
  then emit (ttsWorkletNode_postMessage PCMPlayer.end_) s
  else s.

(** 3.1: [socket.onmessage]. *)
Definition socket_onmessage (m : Message) (s : t) : t :=
  match m with
  | stt_end =>
      let s := stopListening s in
      let s := set_sttLocked true s in
      set_status processing s
  | final_answer data =>
      let s := set_finalAnswer data s in
      let s := set_status processing s in
      let s := initTtsPlayer s in
      set_sttLocked true s
  | tts_chunk data =>
      let s := if sttLocked s then s
               else stopListening (set_sttLocked true s) in
      let s := if ttsWorkletNode s then s else initTtsPlayer s in
      pushTtsChunkBase64 data s
  | tts_end => endTtsStream s
  | error _ => stopSession s
  | unrecognized => s
  end.

(** The connection changes its [readyState] before it fires an event. *)
Definition set_readyState (r : ReadyState) (s : t) : t :=
  match socket s with
  | Some _ => set_socket (Some r) s
  | None => s
  end.

Definition socket_onopen (granted : bool) (s : t) : t :=
  startListening granted s.

Definition socket_onerror (s : t) : t := stopSession s.

Definition socket_onclose (s : t) : t := set_status idle s.

Definition setupWebSocket (s : t) : t :=
  set_socket (Some CONNECTING) (emit WebSocket_new s).

Definition startSession (s : t) : t :=
  if negb (Status_eqb (status s) idle) then s
  else
    let s := set_status connecting s in
    let s := set_audioContext true s in
    setupWebSocket s.

Definition toggleSession (s : t) : t :=
  if Status_eqb (status s) idle then startSession s else stopSession s.

(** What can happen to a session: the one control method, the events of
    the connection, and the messages of the two worklet ports. *)
Inductive Event : Type :=
| toggle
| opened (granted : bool)
| message (m : Message)
| failed
| closed
| captured (frame : list Z)
| playback_ended (granted : bool).

Definition step (e : Event) (s : t) : t :=
  match e with
  | toggle => toggleSession s
  | opened granted => socket_onopen granted (set_readyState OPEN s)
  | message m => socket_onmessage m s
  | failed => socket_onerror s
  | closed => socket_onclose (set_readyState CLOSED s)
  | captured frame => userWorkletNode_onmessage frame s
  | playback_ended granted => ttsWorkletNode_onmessage granted s
  end.

Definition run (es : list Event) (s : t) : t :=
  fold_left (fun s e => step e s) es s.

Inductive reachable : t -> Prop :=
| reachable_init : reachable init
| reachable_step : forall e s, reachable s -> reachable (step e s).

(** The invariant of section 3 between [status] and the capture lock;
    [connecting] is left free. *)
Definition lock_consistent (s : t) : bool :=
  match status s with
  | processing | speaking => sttLocked s
  | idle | listening => negb (sttLocked s)
  | connecting => true
  end.

(** The same, together with what keeps it: playback is only marked
    active under the lock. *)
Definition lock_invariant (s : t) : bool :=
  lock_consistent s && implb (ttsPlaying s) (sttLocked s).

(** The release effects a teardown owes for what the session holds, in
    the order [stopSession] performs them. *)
Definition releases (s : t) : list Effect :=
  (match socket s with Some _ => [socket_close] | None => [] end)
  ++ (match mediaStream s with Some _ => [track_stop] | None => [] end)
  ++ (if userSourceNode s then [userSourceNode_disconnect] else [])
  ++ (if userWorkletNode s then [userWorkletNode_disconnect] else [])
  ++ (if ttsWorkletNode s then [ttsWorkletNode_disconnect] else []).

(** An event other than the [close] of the connection, carrying a
    decodable payload when it is a speech chunk. *)
Definition orderly (e : Event) : bool :=
  match e with
  | closed => false
  | message (tts_chunk data) =>
      match Wire.decode_chunk data with
      | Some _ => true
      | None => false
      end
  | _ => true
  end.

End Session.

(* ------------------------------------------------------------------ *)
(** ** The specification's own formulas (section 4.4), for comparison *)

Module Spec.

(** "treating out-of-range source samples as 0" *)
Definition sample (input : list Q) (k : Z) : Q :=
  match JS.get input k with
  | Some x => x
  | None => 0%Q
  end.


(** "round(len(input) * Rout/Rin)" *)
Definition length (input : list Q) (Rin Rout : Q) : nat :=
  Z.to_nat (JS.Math_round
              (inject_Z (Z.of_nat (List.length input)) * Rout / Rin)%Q).


Definition clamp (x lo hi : Q) : Q := Qmax lo (Qmin hi x).

(** "int16 = clamp(float, -1, 1) * 32767, truncating toward zero" *)
Definition quantize (x : Q) : Z := JS.truncate (clamp x (-1) 1 * 32767)%Q.

(** "float = int16 / 32768" *)
Definition dequantize (q : Z) : Q := (inject_Z q / 32768)%Q.

(** "one quantization step (about 1/32768)" *)
Definition step : Q := 1 # 32768.

(** The resampling formulas as a program evaluates them on binary64
    numbers: the ratio [Rout/Rin] is rounded once, the position is the index
    divided by that ratio, every operation is rounded, and the result is
    stored as a binary32 number. *)
Definition ratio64 (Rin Rout : Q) : Q := Float.fl64 (Rout / Rin).

Definition scaled64 (input : list Q) (Rin Rout : Q) : Q :=
  Float.fl64 (inject_Z (Z.of_nat (List.length input)) * ratio64 Rin Rout).

Definition position64 (Rin Rout : Q) (i : nat) : Q :=
  Float.fl64 (inject_Z (Z.of_nat i) / ratio64 Rin Rout).

Definition interpolate64 (input : list Q) (low high : Z) (pos : Q) : Q :=
  Float.fl32
    (Float.fl64
       (sample input low
        + Float.fl64 (Float.fl64 (sample input high - sample input low)
                      * Float.fl64 (pos - inject_Z low)))).

End Spec.

(* ------------------------------------------------------------------ *)
(** ** Checking a property of bytes by enumeration *)

Module Enum.

(** [p] holds of [0], ..., [n - 1]. *)
Definition all_below (n : nat) (p : Z -> bool) : bool :=
  forallb (fun i => p (Z.of_nat i)) (seq 0 n).

Definition all_bytes (p : Z -> bool) : bool := all_below 256 p.

Definition all_bytes2 (p : Z -> Z -> bool) : bool :=
  all_bytes (fun a => all_bytes (p a)).

Definition is_sextet (s : Z) : bool := (0 <=? s) && (s <? 64).

End Enum.

(** A sample between two bounds. *)
Definition within (lo hi : Q) (x : Q) : Prop := (lo <= x <= hi)%Q.

(* ------------------------------------------------------------------ *)
(** ** The rest of the composable: unmounting, and what holds the handles *)

Module Lifecycle.
Import Session.

(** The [onUnmounted] hook: [stopSession()], then
    [if (audioContext) { audioContext.close(); audioContext = null; }].  The
    result tells whether [audioContext.close()] was called. *)
Definition onUnmounted (s : t) : t * bool :=
  let s := stopSession s in
  if audioContext s then (set_audioContext false s, true) else (s, false).

Definition holds_stream (s : t) : bool :=
  match mediaStream s with
  | Some _ => true
  | None => false
  end.

(** The handles that are created together and dropped together, and the
    statuses that need them. *)
Definition handles_consistent (s : t) : bool :=
  Bool.eqb (aiAnalyser s) (ttsWorkletNode s)
  && Bool.eqb (userAnalyser s) (holds_stream s)
  && Bool.eqb (userSourceNode s) (holds_stream s)
  && Bool.eqb (userWorkletNode s) (holds_stream s)
  && implb (ttsPlaying s) (ttsWorkletNode s)
  && match status s with
     | speaking => ttsWorkletNode s
     | listening => holds_stream s
     | _ => true
     end.

(** One turn of the assistant as the server drives it: the end of the
    user's speech, the chunks of the reply, the end of the reply, and the
    notification of the playback worklet once it has drained. *)
Definition turn (chunks : list string) (granted : bool) : list Event :=
  message stt_end
  :: map (fun data => message (tts_chunk data)) chunks
  ++ [message tts_end; playback_ended granted].

End Lifecycle.

(* ------------------------------------------------------------------ *)
(** ** The presentation components that consume the composable *)

Module UI.
Import Session.

(** Canvas coordinates and the constants 0.9, 2.2 and 0.4 of the drawing
    code are exact rationals here. *)

(** The component that calls [useVoiceService] ([isAiSpeaking],
    [isUserListening], [isVisualizing], [statusText], [statusSubtitle]). *)
Definition isAiSpeaking (s : t) : bool := Status_eqb (status s) speaking.
Definition isUserListening (s : t) : bool := Status_eqb (status s) listening.
Definition isVisualizing (s : t) : bool := isAiSpeaking s || isUserListening s.

Definition statusText (s : t) : string :=
  match status s with
  | connecting => "正在连接..."
  | listening => "我在听，请讲..."
  | processing => "我正在思考哦..."
  | speaking => "请仔细听我的回复哦..."
  | idle => "请点击下方麦克风开始对话哦"
  end.

Definition statusSubtitle (s : t) : string :=
  if Status_eqb (status s) idle then "对话内容均为AI生成" else "".

(** AssistantStatus: the subtitle paragraph is rendered under
    [v-if="subtitle"], that is, when the string is not empty. *)
Definition subtitle_rendered (subtitle : string) : bool :=
  match subtitle with
  | EmptyString => false
  | String _ _ => true
  end.

(** AssistantControls: [Power] under [v-if="status !== 'idle'"], [Mic]
    otherwise; a click emits [toggle-session], which the parent answers with
    [toggleSession]. *)
Inductive Icon : Type := Power | Mic.

Definition icon (s : t) : Icon :=
  if negb (Status_eqb (status s) idle) then Power else Mic.

Definition click (s : t) : t := toggleSession s.

(** AssistantWaveform: what the watcher does when a prop changes. *)
Inductive Drawing : Type :=
| nothing
| cleared
| ai_waveform
| user_waveform.

Record Props : Type := mkProps {
  prop_userAnalyser : bool;
  prop_aiAnalyser : bool;
  prop_isVisualizing : bool;
  prop_status : Status
}.

(** The props the parent binds in its template. *)
Definition waveform_props (s : t) : Props :=
  mkProps (userAnalyser s) (aiAnalyser s) (isVisualizing s) (status s).

(** [canvas] tells whether [waveformCanvas.value] is set. *)
Definition watcher (canvas : bool) (p : Props) : Drawing :=
  if negb (prop_isVisualizing p) || negb canvas then
    if canvas then cleared else nothing
  else if Status_eqb (prop_status p) speaking && prop_aiAnalyser p then
    ai_waveform
  else if Status_eqb (prop_status p) listening && prop_userAnalyser p then
    user_waveform
  else nothing.

(** One animation frame of [visualize]. *)
Definition barWidth : Q := 6.
Definition spacing : Q := 4.
Definition barSpacing : Q := (barWidth + spacing)%Q.

Record Bar : Type := mkBar {
  bar_x : Q;
  bar_y : Q;
  bar_width : Q;
  bar_height : Q
}.

Definition barsToDraw (canvas_width : Q) : Z :=
  JS.Math_floor ((canvas_width / 2 - spacing) / barSpacing)%Q.

Definition dataIndex (bufferLength barsToDraw i : Z) : Z :=
  JS.Math_floor
    (inject_Z i * (inject_Z bufferLength / inject_Z barsToDraw) * (9 # 10))%Q.

(** [drawRoundedBar] returns at once when [height <= 0]. *)
Definition drawRoundedBar (x y width height : Q) : list Bar :=
  if Qle_bool height 0 then [] else [mkBar x y width height].

(** The four bars of column [i] for the byte [v] read from [dataArray]:
    right bar, right reflection, left bar, left reflection. *)
Definition column (canvas_width canvas_height : Q) (i : Z) (v : Z) : list Bar :=
  let centerX := (canvas_width / 2)%Q in
  let centerY := (canvas_height / 2)%Q in
  let maxBarHeight := (canvas_height / (22 # 10))%Q in
  let barHeight := (inject_Z v / 255 * maxBarHeight)%Q in
  let reflectionHeight := (barHeight * (4 # 10))%Q in
  let rightBarX := (centerX + spacing / 2 + inject_Z i * barSpacing)%Q in
  let leftBarX :=
    (centerX - spacing / 2 - barWidth - inject_Z i * barSpacing)%Q in
  drawRoundedBar rightBarX (centerY - barHeight)%Q barWidth barHeight
  ++ drawRoundedBar rightBarX centerY barWidth reflectionHeight
  ++ drawRoundedBar leftBarX (centerY - barHeight)%Q barWidth barHeight
  ++ drawRoundedBar leftBarX centerY barWidth reflectionHeight.

(** The body of [draw]: [None] when some [dataArray[dataIndex]] is read
    outside the array (the height would be [NaN]). *)
Fixpoint columns (canvas_width canvas_height : Q) (dataArray : list Z)
         (bars : Z) (indices : list Z) : option (list Bar) :=
  match indices with
  | [] => Some []
  | i :: rest =>
      match JS.get dataArray (dataIndex (Z.of_nat (List.length dataArray)) bars i),
            columns canvas_width canvas_height dataArray bars rest with
      | Some v, Some drawn => Some (column canvas_width canvas_height i v ++ drawn)
      | _, _ => None
      end
  end.

Definition draw (canvas_width canvas_height : Q) (dataArray : list Z)
  : option (list Bar) :=
  let bars := barsToDraw canvas_width in
  columns canvas_width canvas_height dataArray bars
          (JS.tabulate bars (fun i => i)).

(** A bar lies on the canvas. *)
Definition on_canvas (canvas_width canvas_height : Q) (b : Bar) : Prop :=
  (0 <= bar_x b /\ bar_x b + bar_width b <= canvas_width
   /\ 0 <= bar_y b /\ bar_y b + bar_height b <= canvas_height)%Q.

End UI.

(* ================================================================== *)
(** * Properties *)

(** ** Arithmetic of the primitives *)

Lemma tabulate_length {A : Type} (n : Z) (f : Z -> A) :
  List.length (JS.tabulate n f) = Z.to_nat n.
Proof. unfold JS.tabulate. now rewrite length_map, length_seq. Qed.

Lemma tabulate_nth {A : Type} (n : Z) (f : Z -> A) (i : nat) (d : A) :
  (i < Z.to_nat n)%nat -> nth i (JS.tabulate n f) d = f (Z.of_nat i).
Proof.
  intros Hi. unfold JS.tabulate.
  rewrite (nth_indep _ d (f (Z.of_nat 0%nat)))
    by (rewrite length_map, length_seq; exact Hi).
  rewrite (map_nth (fun k => f (Z.of_nat k))).
  now rewrite seq_nth.
Qed.

Lemma or_else_zero (input : list Q) (k : Z) :
  (JS.or_else (JS.get input k) 0 == Spec.sample input k)%Q.
Proof.
  unfold JS.or_else, Spec.sample. destruct (JS.get input k) as [x|]; [|reflexivity].
  destruct (Qeq_bool x 0) eqn:E; [|reflexivity].
  apply Qeq_bool_iff in E. now rewrite E.
Qed.

Lemma truncate_nonneg (y : Q) : (0 <= y)%Q -> JS.truncate y = Qfloor y.
Proof.
  destruct y as [a b]. unfold Qle, JS.truncate, Qfloor. simpl. intros H.
  apply Z.quot_div_nonneg; lia.
Qed.

Lemma truncate_nonpos (y : Q) : (y <= 0)%Q -> JS.truncate y = Qceiling y.
Proof.
  destruct y as [a b]. unfold Qle, JS.truncate, Qceiling, Qfloor. simpl. intros H.
  rewrite <- (Z.opp_involutive a) at 1.
  rewrite Z.quot_opp_l by lia.
  rewrite Z.quot_div_nonneg by lia. reflexivity.
Qed.

(** Truncation moves towards zero by less than one. *)
Lemma truncate_spec (y : Q) :
  ((0 <= y -> inject_Z (JS.truncate y) <= y /\ y < inject_Z (JS.truncate y) + 1)
   /\ (y <= 0 -> y <= inject_Z (JS.truncate y) /\ inject_Z (JS.truncate y) < y + 1))%Q.
Proof.
  split; intros H.
  - rewrite truncate_nonneg by assumption. split.
    + apply Qfloor_le.
    + pose proof (Qlt_floor y) as L. rewrite inject_Z_plus in L. exact L.
  - rewrite truncate_nonpos by assumption. split.
    + apply Qle_ceiling.
    + pose proof (Qceiling_lt y) as L.
      unfold Z.sub in L. rewrite inject_Z_plus in L.
      change (inject_Z (- (1))) with (-1 # 1)%Q in L. lra.
Qed.

Lemma ToInt16_small (n : Z) : -32768 <= n < 32768 -> JS.ToInt16 n = n.
Proof.
  intros H. unfold JS.ToInt16. cbv zeta.
  destruct (Z.leb_spec 32768 (n mod 65536)) as [L|L];
    Z.div_mod_to_equations; lia.
Qed.

Lemma ToInt16_range (n : Z) : -32768 <= JS.ToInt16 n < 32768.
Proof.
  unfold JS.ToInt16. cbv zeta.
  pose proof (Z.mod_pos_bound n 65536 eq_refl) as B.
  destruct (Z.leb_spec 32768 (n mod 65536)); lia.
Qed.

Lemma inject_Z_le_inv (a b : Z) : (inject_Z a <= inject_Z b)%Q -> a <= b.
Proof. now rewrite <- Zle_Qle. Qed.

Lemma inject_Z_lt_inv (a b : Z) : (inject_Z a < inject_Z b)%Q -> a < b.
Proof. now rewrite <- Zlt_Qlt. Qed.

Lemma truncate_comp (y y' : Q) : (y == y')%Q -> JS.truncate y = JS.truncate y'.
Proof.
  intros E. destruct (Qlt_le_dec y 0) as [N|P].
  - rewrite !truncate_nonpos by lra. now rewrite E.
  - rewrite !truncate_nonneg by lra. now rewrite E.
Qed.

Lemma truncate_bounded (y : Q) (k : Z) :
  0 <= k -> (- inject_Z k <= y <= inject_Z k)%Q -> - k <= JS.truncate y <= k.
Proof.
  intros Hk [Lo Hi]. destruct (truncate_spec y) as [Pos Neg].
  destruct (Qlt_le_dec y 0) as [N|P].
  - destruct Neg as [A B]; [lra|].
    split.
    + apply inject_Z_le_inv. rewrite inject_Z_opp. lra.
    + assert (inject_Z (JS.truncate y) < inject_Z 1)%Q as C
        by (change (inject_Z 1) with 1%Q; lra).
      apply inject_Z_lt_inv in C. lia.
  - destruct Pos as [A B]; [lra|].
    split.
    + assert (inject_Z (-1) < inject_Z (JS.truncate y))%Q as C
        by (change (inject_Z (-1)) with (-1 # 1)%Q; lra).
      apply inject_Z_lt_inv in C. lia.
    + apply inject_Z_le_inv. lra.
Qed.

(** ** Quantizer and dequantizer (section 4.4) *)

(** On every 16-bit sample the clamp of the dequantizer is idle: the
    result is the quotient by 32768. *)
Lemma dequantize_exact (q : Z) :
  -32768 <= q <= 32767 ->
  (PCMPlayer.dequantize q == Spec.dequantize q)%Q.
Proof.
  intros [Lo Hi]. unfold PCMPlayer.dequantize, Spec.dequantize, JS.Math_max, JS.Math_min.
  rewrite Zle_Qle in Lo, Hi.
  change (inject_Z (-32768)) with (-32768 # 1)%Q in Lo.
  change (inject_Z 32767) with (32767 # 1)%Q in Hi.
  assert (inject_Z q / 32768 == inject_Z q * (1 # 32768))%Q as D by reflexivity.
  assert (Qmin 1 (inject_Z q / 32768) == inject_Z q / 32768)%Q as E
    by (apply Q.min_r; rewrite D; lra).
  transitivity (Qmin 1 (inject_Z q / 32768)); [|exact E].
  apply Q.max_r. rewrite E, D. lra.
Qed.

(** At and above -1 the quantizer agrees with the two-sided clamp of the
    specification. *)
Lemma quantize_clamps_above_minus_one (x : Q) :
  (-1 <= x)%Q -> ResamplerProcessor.quantize x = Spec.quantize x.
Proof.
  intros Lo.
  unfold ResamplerProcessor.quantize, Spec.quantize, Spec.clamp, JS.Int16_store, JS.Math_min.
  assert (-1 <= Qmin 1 x <= 1)%Q as [A B].
  { split; [apply Q.min_glb; lra | apply Q.le_min_l]. }
  rewrite ToInt16_small.
  - apply truncate_comp.
    assert (Qmax (-1) (Qmin 1 x) == Qmin 1 x)%Q as E by (apply Q.max_r; exact A).
    now rewrite E.
  - pose proof (truncate_bounded (Qmin 1 x * 32767) 32767 ltac:(lia)) as T.
    change (inject_Z 32767) with (32767 # 1)%Q in T.
    destruct T; [split; lra | lia].
Qed.

Lemma quantize_in_unit_range (x : Q) :
  (-1 <= x <= 1)%Q ->
  let q := ResamplerProcessor.quantize x in
  -32767 <= q <= 32767
  /\ ((0 <= x -> inject_Z q <= x * 32767 /\ x * 32767 < inject_Z q + 1)
      /\ (x <= 0 -> x * 32767 <= inject_Z q /\ inject_Z q < x * 32767 + 1))%Q.
Proof.
  intros [Lo Hi] q. subst q.
  unfold ResamplerProcessor.quantize, JS.Int16_store, JS.Math_min.
  assert (Qmin 1 x == x)%Q as E0 by (apply Q.min_r; lra).
  assert (Qmin 1 x * 32767 == x * 32767)%Q as E by (now rewrite E0).
  rewrite (truncate_comp _ _ E).
  pose proof (truncate_bounded (x * 32767) 32767 ltac:(lia)) as T.
  change (inject_Z 32767) with (32767 # 1)%Q in T.
  destruct T as [T1 T2]; [split; lra|].
  rewrite ToInt16_small by lia.
  split; [lia|].
  destruct (truncate_spec (x * 32767)) as [Pos Neg].
  split; intros S; [apply Pos | apply Neg]; lra.
Qed.

(** C4.  The quantizer clamps one side only: [Math.min(1, x)] has no
    matching [Math.max(-1, ...)].  The float sample -1.5 is scaled to
    -49150.5, truncated to -49150 and wrapped by the [Int16Array] store to
    +16386, where the specification's [clamp(x, -1, 1) * 32767] gives -32767.
    (The dequantizer, which has both bounds, returns [q / 32768] on every
    16-bit sample: [dequantize_exact].) *)
Theorem quantize_wraps_below_minus_one :
  ResamplerProcessor.float32ToInt16 [(-3 # 2)%Q] = [16386]
  /\ Spec.quantize (-3 # 2) = -32767
  /\ forall q, -32768 <= q <= 32767 ->
       (PCMPlayer.dequantize q == Spec.dequantize q)%Q.
Proof.
  split; [reflexivity|]. split; [reflexivity|]. exact dequantize_exact.
Qed.

(** C5 (as amended).  Quantizing a sample of [-1, 1] as the capture worklet
    does and dequantizing the result as the playback worklet does returns a
    value less than two quantization steps away: one step for the truncation
    and up to one more because the two scales, 32767 and 32768, differ. *)
Theorem quantize_dequantize_within_two_steps (x : Q) :
  (-1 <= x <= 1)%Q ->
  (Qabs (PCMPlayer.dequantize (ResamplerProcessor.quantize x) - x)
   < 2 * Spec.step)%Q.
Proof.
  intros H.
  destruct (quantize_in_unit_range x H) as [R [Pos Neg]].
  rewrite (dequantize_exact (ResamplerProcessor.quantize x)) by lia.
  unfold Spec.dequantize, Spec.step.
  set (q := inject_Z (ResamplerProcessor.quantize x)) in *.
  assert (q / 32768 == q * (1 # 32768))%Q as D by reflexivity.
  rewrite D. apply Qabs_Qlt_condition.
  destruct (Qlt_le_dec x 0) as [N|P].
  - destruct Neg as [A B]; [lra|]. split; lra.
  - destruct Pos as [A B]; [lra|]. split; lra.
Qed.

Lemma quantize_dequantize_within_two_steps_witness :
  (-1 <= 131071 # 131072 <= 1)%Q
  /\ (Qabs (PCMPlayer.dequantize (ResamplerProcessor.quantize (131071 # 131072))
            - (131071 # 131072)) < 2 * Spec.step)%Q.
Proof.
  split.
  - split; unfold Qle; simpl; lia.
  - apply (quantize_dequantize_within_two_steps (131071 # 131072)).
    split; unfold Qle; simpl; lia.
Defined.

(** C5 as stated fails at x = 1 - 2^-17 (a 32-bit float): 32767 x =
    32766.75 is truncated to 32766, which dequantizes to 1 - 2^-14; the
    difference 7/131072 is 1.75 steps of 1/32768, and more than 1/32767
    too. *)
Lemma quantize_dequantize_exceeds_one_step :
  let x := (131071 # 131072)%Q in
  let d := Qabs (PCMPlayer.dequantize (ResamplerProcessor.quantize x) - x) in
  (-1 <= x <= 1)%Q
  /\ ResamplerProcessor.quantize x = 32766
  /\ (d == 7 # 131072)%Q
  /\ ~ (d <= Spec.step)%Q
  /\ ~ (d <= 1 # 32767)%Q.
Proof.
  cbv zeta. repeat split; try reflexivity; vm_compute; congruence.
Qed.

(** ** Rounding to the nearest float *)

Lemma pow2_pos e : (0 < Float.pow2 e)%Q.
Proof. apply Qpower_0_lt. reflexivity. Qed.

Lemma pow2_plus a b : (Float.pow2 (a + b) == Float.pow2 a * Float.pow2 b)%Q.
Proof. apply Qpower_plus. discriminate. Qed.

Lemma pow2_le a b : a <= b -> (Float.pow2 a <= Float.pow2 b)%Q.
Proof. intros H. apply Qpower_le_compat_l; [exact H | discriminate]. Qed.

Lemma pow2_lt a b : a < b -> (Float.pow2 a < Float.pow2 b)%Q.
Proof. intros H. apply Qpower_lt_compat_l; [exact H | reflexivity]. Qed.

Lemma pow2_lt_inv a b : (Float.pow2 a < Float.pow2 b)%Q -> a < b.
Proof. intros H. apply (Qpower_lt_compat_l_inv 2); [exact H | reflexivity]. Qed.

Lemma pow2_inject n : 0 <= n -> (inject_Z (2 ^ n) == Float.pow2 n)%Q.
Proof. intros H. apply (Zpower_Qpower 2 n H). Qed.

Lemma Qmake_mult_den n d : (Qmake n d * inject_Z (Zpos d) == inject_Z n)%Q.
Proof. unfold Qeq, Qmult, inject_Z. simpl. lia. Qed.

Lemma ilog2_spec x :
  (0 < x)%Q ->
  (Float.pow2 (Float.ilog2 x) <= x < Float.pow2 (Float.ilog2 x + 1))%Q.
Proof.
  intros P. destruct x as [n d].
  assert (0 < n) as Pn by (unfold Qlt in P; simpl in P; lia).
  set (a := Z.log2 n). set (b := Z.log2 (Zpos d)).
  destruct (Z.log2_spec n Pn) as [A1 A2]. fold a in A1, A2.
  destruct (Z.log2_spec (Zpos d) (Pos2Z.is_pos d)) as [B1 B2]. fold b in B1, B2.
  assert (0 <= a) as Ha by apply Z.log2_nonneg.
  assert (0 <= b) as Hb by apply Z.log2_nonneg.
  assert (Float.pow2 (a - b - 1) <= n # d)%Q as Lo.
  { apply (Qmult_le_r _ _ (inject_Z (Zpos d))); [reflexivity|].
    rewrite Qmake_mult_den.
    apply Qle_trans with (Float.pow2 (a - b - 1) * Float.pow2 (b + 1))%Q.
    - apply Qmult_le_l; [apply pow2_pos|].
      rewrite <- pow2_inject by lia. rewrite <- Zle_Qle. lia.
    - rewrite <- pow2_plus. replace (a - b - 1 + (b + 1)) with a by lia.
      rewrite <- pow2_inject by lia. rewrite <- Zle_Qle. exact A1. }
  assert (n # d < Float.pow2 (a - b + 1))%Q as Hi.
  { apply (Qmult_lt_r _ _ (inject_Z (Zpos d))); [reflexivity|].
    rewrite Qmake_mult_den.
    apply Qlt_le_trans with (Float.pow2 (a - b + 1) * Float.pow2 b)%Q.
    - rewrite <- pow2_plus. replace (a - b + 1 + b) with (a + 1) by lia.
      rewrite <- pow2_inject by lia. rewrite <- Zlt_Qlt. fold (Z.succ a). exact A2.
    - apply Qmult_le_l; [apply pow2_pos|].
      rewrite <- pow2_inject by lia. rewrite <- Zle_Qle. exact B1. }
  unfold Float.ilog2. cbn [Qnum Qden]. fold a b.
  destruct (Qle_bool (Float.pow2 (a - b)) (n # d)) eqn:E.
  - apply Qle_bool_iff in E. split; [exact E | exact Hi].
  - split.
    + exact Lo.
    + replace (a - b - 1 + 1) with (a - b) by lia.
      apply Qnot_le_lt. intros C. apply Qle_bool_iff in C. congruence.
Qed.

Lemma ilog2_unique x k :
  (Float.pow2 k <= x < Float.pow2 (k + 1))%Q -> Float.ilog2 x = k.
Proof.
  intros [L U].
  assert (0 < x)%Q as P by (eapply Qlt_le_trans; [apply (pow2_pos k) | exact L]).
  destruct (ilog2_spec x P) as [L' U'].
  assert (Float.ilog2 x < k + 1)
    by (apply pow2_lt_inv; eapply Qle_lt_trans; eassumption).
  assert (k < Float.ilog2 x + 1)
    by (apply pow2_lt_inv; eapply Qle_lt_trans; eassumption).
  lia.
Qed.

Lemma ilog2_comp x y : (0 < x)%Q -> (x == y)%Q -> Float.ilog2 x = Float.ilog2 y.
Proof.
  intros P E. symmetry. apply ilog2_unique. rewrite <- E. now apply ilog2_spec.
Qed.

Lemma ilog2_mono x y : (0 < x)%Q -> (x <= y)%Q -> Float.ilog2 x <= Float.ilog2 y.
Proof.
  intros P L.
  assert (0 < y)%Q as Py by (eapply Qlt_le_trans; eassumption).
  destruct (ilog2_spec x P) as [L1 _]. destruct (ilog2_spec y Py) as [_ U2].
  assert (Float.ilog2 x < Float.ilog2 y + 1); [|lia].
  apply pow2_lt_inv. eapply Qle_lt_trans; [exact L1|]. eapply Qle_lt_trans; eassumption.
Qed.

Lemma rne_cases x :
  let f := Qfloor x in
  (Float.rne x = f /\ (x - inject_Z f <= 1 # 2)%Q
   /\ ((x - inject_Z f == 1 # 2)%Q -> Z.even f = true))
  \/ (Float.rne x = f + 1 /\ (1 # 2 <= x - inject_Z f)%Q
      /\ ((x - inject_Z f == 1 # 2)%Q -> Z.even f = false)).
Proof.
  intros f. unfold Float.rne. fold f.
  destruct (Qcompare_spec (x - inject_Z f) (1 # 2)) as [E|L|G].
  - destruct (Z.even f) eqn:Ev.
    + left. split; [reflexivity|].
      split; [rewrite E; apply Qle_refl | intros _; reflexivity].
    + right. split; [reflexivity|].
      split; [rewrite E; apply Qle_refl | intros _; reflexivity].
  - left. split; [reflexivity|]. split; [now apply Qlt_le_weak|].
    intros E. rewrite E in L. discriminate L.
  - right. split; [reflexivity|]. split; [now apply Qlt_le_weak|].
    intros E. rewrite E in G. discriminate G.
Qed.

Lemma rne_bounds x :
  (inject_Z (Float.rne x) - (1 # 2) <= x <= inject_Z (Float.rne x) + (1 # 2))%Q.
Proof.
  pose proof (Qfloor_le x) as L. pose proof (Qlt_floor x) as U.
  rewrite inject_Z_plus in U. change (inject_Z 1) with 1%Q in U.
  destruct (rne_cases x) as [[-> [H _]]|[-> [H _]]].
  - lra.
  - rewrite inject_Z_plus. change (inject_Z 1) with 1%Q. lra.
Qed.

Lemma rne_comp x y : (x == y)%Q -> Float.rne x = Float.rne y.
Proof.
  intros E. unfold Float.rne. rewrite (Qfloor_comp x y E).
  assert (x - inject_Z (Qfloor y) == y - inject_Z (Qfloor y))%Q as E' by (rewrite E; reflexivity).
  rewrite (Qcompare_comp _ _ E' (1 # 2) (1 # 2) (Qeq_refl _)). reflexivity.
Qed.

Lemma rne_Z z : Float.rne (inject_Z z) = z.
Proof.
  unfold Float.rne. rewrite Qfloor_Z.
  assert (inject_Z z - inject_Z z == 0)%Q as E by ring.
  rewrite (Qcompare_comp _ _ E (1 # 2) (1 # 2) (Qeq_refl _)). reflexivity.
Qed.

Lemma rne_mono x y : (x <= y)%Q -> Float.rne x <= Float.rne y.
Proof.
  intros L.
  pose proof (Qfloor_resp_le x y L) as F.
  destruct (rne_cases x) as [[Rx [Hx Tx]]|[Rx [Hx Tx]]];
  destruct (rne_cases y) as [[Ry [Hy Ty]]|[Ry [Hy Ty]]]; rewrite Rx, Ry; try lia.
  destruct (Z.eq_dec (Qfloor x) (Qfloor y)) as [E|N]; [|lia].
  exfalso. rewrite E in Hx, Tx.
  assert (y - inject_Z (Qfloor y) == 1 # 2)%Q as Ey by lra.
  assert (x - inject_Z (Qfloor y) == 1 # 2)%Q as Ex by lra.
  rewrite (Ty Ey) in Tx. specialize (Tx Ex). discriminate.
Qed.

Lemma Qfloor_unique (x : Q) (j : Z) :
  (inject_Z j <= x)%Q -> (x < inject_Z j + 1)%Q -> Qfloor x = j.
Proof.
  intros Lo Hi. pose proof (Qfloor_le x) as A. pose proof (Qlt_floor x) as B.
  rewrite inject_Z_plus in B. change (inject_Z 1) with 1%Q in B.
  assert (inject_Z (Qfloor x) < inject_Z (j + 1))%Q as C
    by (rewrite inject_Z_plus; change (inject_Z 1) with 1%Q; lra).
  assert (inject_Z j < inject_Z (Qfloor x + 1))%Q as D
    by (rewrite inject_Z_plus; change (inject_Z 1) with 1%Q; lra).
  apply inject_Z_lt_inv in C, D. lia.
Qed.

Lemma rne_opp x : Float.rne (- x) = - Float.rne x.
Proof.
  pose proof (Qfloor_le x) as L. pose proof (Qlt_floor x) as U.
  rewrite inject_Z_plus in U. change (inject_Z 1) with 1%Q in U.
  set (f := Qfloor x) in *.
  destruct (Qeq_dec x (inject_Z f)) as [E|N].
  - rewrite (rne_comp x (inject_Z f) E).
    assert (- x == inject_Z (- f))%Q as E' by (rewrite inject_Z_opp, E; reflexivity).
    rewrite (rne_comp _ _ E'). now rewrite !rne_Z.
  - assert (inject_Z f < x)%Q as L2.
    { apply Qnot_le_lt. intros C. apply N. now apply Qle_antisym. }
    assert (Qfloor (- x) = - f - 1) as Fl.
    { apply Qfloor_unique; unfold Z.sub; rewrite inject_Z_plus, inject_Z_opp;
        change (inject_Z (- (1))) with (-1 # 1)%Q; lra. }
    destruct (rne_cases x) as [[Rx [Hx Tx]]|[Rx [Hx Tx]]];
    destruct (rne_cases (- x)) as [[Ry [Hy Ty]]|[Ry [Hy Ty]]];
    fold f in Rx, Hx, Tx; rewrite Fl in Ry, Hy, Ty; rewrite Rx, Ry; try lia;
    unfold Z.sub in Hy, Ty; rewrite inject_Z_plus, inject_Z_opp in Hy, Ty;
    change (inject_Z (- (1))) with (-1 # 1)%Q in Hy, Ty; exfalso.
    + assert (x - inject_Z f == 1 # 2)%Q as Ex by lra.
      assert (- x - (- inject_Z f + (-1 # 1)) == 1 # 2)%Q as Ey by lra.
      specialize (Tx Ex). specialize (Ty Ey).
      replace (- f + - (1)) with (- (f + 1)) in Ty by lia.
      rewrite Z.even_opp, Z.even_add in Ty. rewrite Tx in Ty. discriminate.
    + assert (x - inject_Z f == 1 # 2)%Q as Ex by lra.
      assert (- x - (- inject_Z f + (-1 # 1)) == 1 # 2)%Q as Ey by lra.
      specialize (Tx Ex). specialize (Ty Ey).
      replace (- f + - (1)) with (- (f + 1)) in Ty by lia.
      rewrite Z.even_opp, Z.even_add in Ty. rewrite Tx in Ty. discriminate.
Qed.

Lemma Qabs_nonzero x : ~ (x == 0)%Q -> (0 < Qabs x)%Q.
Proof.
  intros N. apply Qabs_case; intros H.
  - apply Qnot_le_lt. intros C. apply N. now apply Qle_antisym.
  - assert (~ x >= 0)%Q as C by (intros C; apply N; now apply Qle_antisym).
    apply Qnot_le_lt in C. lra.
Qed.

Lemma Qeq_bool_zero x : Qeq_bool x 0 = false -> ~ (x == 0)%Q.
Proof. intros E C. apply Qeq_bool_iff in C. congruence. Qed.

Lemma Qdiv_pow2 x q : (x / Float.pow2 q * Float.pow2 q == x)%Q.
Proof. field. pose proof (pow2_pos q). lra. Qed.

Lemma Qdiv_pow2_le x y q : (x <= y)%Q -> (x / Float.pow2 q <= y / Float.pow2 q)%Q.
Proof.
  intros L. apply Qmult_le_r with (z := Float.pow2 q); [apply pow2_pos|].
  now rewrite !Qdiv_pow2.
Qed.

Section Rounding.
Variables prec emin : Z.
Hypothesis prec_pos : 0 < prec.

Lemma exponent_comp x y :
  ~ (x == 0)%Q -> (x == y)%Q -> Float.exponent prec emin x = Float.exponent prec emin y.
Proof.
  intros N E. unfold Float.exponent.
  rewrite (ilog2_comp (Qabs x) (Qabs y)); [reflexivity | now apply Qabs_nonzero |].
  now rewrite E.
Qed.

Lemma round_comp x y : (x == y)%Q -> Float.round prec emin x = Float.round prec emin y.
Proof.
  intros E. unfold Float.round.
  assert (Qeq_bool x 0 = Qeq_bool y 0) as B.
  { destruct (Qeq_bool x 0) eqn:Bx, (Qeq_bool y 0) eqn:By; try reflexivity.
    - apply Qeq_bool_iff in Bx. apply Qeq_bool_zero in By. rewrite E in Bx. contradiction.
    - apply Qeq_bool_iff in By. apply Qeq_bool_zero in Bx. rewrite E in Bx. contradiction. }
  rewrite <- B. destruct (Qeq_bool x 0) eqn:Bx; [reflexivity|].
  apply Qeq_bool_zero in Bx. cbv zeta.
  rewrite <- (exponent_comp x y Bx E).
  rewrite (rne_comp (x / Float.pow2 (Float.exponent prec emin x))
                    (y / Float.pow2 (Float.exponent prec emin x))); [reflexivity|].
  unfold Qdiv. apply Qmult_comp; [exact E | reflexivity].
Qed.

Lemma round_zero x : (x == 0)%Q -> Float.round prec emin x = 0%Q.
Proof. intros E. now rewrite (round_comp x 0 E). Qed.

Lemma round_nonzero x :
  ~ (x == 0)%Q ->
  Float.round prec emin x
  = (inject_Z (Float.rne (x / Float.pow2 (Float.exponent prec emin x)))
     * Float.pow2 (Float.exponent prec emin x))%Q.
Proof.
  intros N. unfold Float.round. destruct (Qeq_bool x 0) eqn:B; [|reflexivity].
  apply Qeq_bool_iff in B. contradiction.
Qed.

Lemma round_opp x : (Float.round prec emin (- x) == - Float.round prec emin x)%Q.
Proof.
  destruct (Qeq_dec x 0) as [E|N].
  - rewrite (round_zero x E). rewrite (round_zero (- x)); [reflexivity|]. rewrite E. reflexivity.
  - assert (~ - x == 0)%Q as N' by (intros C; apply N; lra).
    rewrite (round_nonzero x N), (round_nonzero (- x) N').
    assert (Float.exponent prec emin (- x) = Float.exponent prec emin x) as Eq.
    { unfold Float.exponent.
      rewrite (ilog2_comp (Qabs (- x)) (Qabs x)); [reflexivity | now apply Qabs_nonzero |].
      apply Qabs_opp. }
    rewrite Eq.
    rewrite (rne_comp (- x / Float.pow2 (Float.exponent prec emin x))
                      (- (x / Float.pow2 (Float.exponent prec emin x)))).
    + rewrite rne_opp, inject_Z_opp. ring.
    + field. pose proof (pow2_pos (Float.exponent prec emin x)). lra.
Qed.

(** A multiple of [2^e] is a fixed point of the rounding of every number
    whose exponent is at most [e]: rounding never crosses it. *)
Lemma scale_grid m e q :
  q <= e -> (inject_Z m * Float.pow2 e / Float.pow2 q == inject_Z (m * 2 ^ (e - q)))%Q.
Proof.
  intros L. rewrite inject_Z_mult, (pow2_inject (e - q)) by lia.
  replace e with ((e - q) + q) at 1 by lia. rewrite pow2_plus.
  field. pose proof (pow2_pos q). lra.
Qed.

Lemma round_le_grid x m e :
  ~ (x == 0)%Q -> Float.exponent prec emin x <= e ->
  (x <= inject_Z m * Float.pow2 e)%Q ->
  (Float.round prec emin x <= inject_Z m * Float.pow2 e)%Q.
Proof.
  intros N Le H. rewrite (round_nonzero x N).
  set (q := Float.exponent prec emin x) in *.
  apply Qmult_le_r with (z := (/ Float.pow2 q)%Q).
  { apply Qinv_lt_0_compat, pow2_pos. }
  change (inject_Z m * Float.pow2 e * / Float.pow2 q)%Q
    with (inject_Z m * Float.pow2 e / Float.pow2 q)%Q.
  rewrite (scale_grid m e q Le).
  setoid_replace (inject_Z (Float.rne (x / Float.pow2 q)) * Float.pow2 q * / Float.pow2 q)%Q
    with (inject_Z (Float.rne (x / Float.pow2 q))).
  2:{ field. pose proof (pow2_pos q). lra. }
  rewrite <- Zle_Qle. rewrite <- (rne_Z (m * 2 ^ (e - q))).
  apply rne_mono. rewrite <- (scale_grid m e q Le). now apply Qdiv_pow2_le.
Qed.

Lemma round_ge_grid x m e :
  ~ (x == 0)%Q -> Float.exponent prec emin x <= e ->
  (inject_Z m * Float.pow2 e <= x)%Q ->
  (inject_Z m * Float.pow2 e <= Float.round prec emin x)%Q.
Proof.
  intros N Le H. rewrite (round_nonzero x N).
  set (q := Float.exponent prec emin x) in *.
  apply Qmult_le_r with (z := (/ Float.pow2 q)%Q).
  { apply Qinv_lt_0_compat, pow2_pos. }
  change (inject_Z m * Float.pow2 e * / Float.pow2 q)%Q
    with (inject_Z m * Float.pow2 e / Float.pow2 q)%Q.
  rewrite (scale_grid m e q Le).
  setoid_replace (inject_Z (Float.rne (x / Float.pow2 q)) * Float.pow2 q * / Float.pow2 q)%Q
    with (inject_Z (Float.rne (x / Float.pow2 q))).
  2:{ field. pose proof (pow2_pos q). lra. }
  rewrite <- Zle_Qle. rewrite <- (rne_Z (m * 2 ^ (e - q))) at 1.
  apply rne_mono. rewrite <- (scale_grid m e q Le). now apply Qdiv_pow2_le.
Qed.

Lemma round_nonneg x : (0 <= x)%Q -> (0 <= Float.round prec emin x)%Q.
Proof.
  intros P. destruct (Qeq_dec x 0) as [E|N].
  - rewrite (round_zero x E). apply Qle_refl.
  - pose proof (round_ge_grid x 0 (Float.exponent prec emin x) N (Z.le_refl _)) as G.
    setoid_replace (inject_Z 0 * Float.pow2 (Float.exponent prec emin x))%Q with 0%Q in G
      by ring.
    now apply G.
Qed.

Lemma round_nonpos x : (x <= 0)%Q -> (Float.round prec emin x <= 0)%Q.
Proof.
  intros P. destruct (Qeq_dec x 0) as [E|N].
  - rewrite (round_zero x E). apply Qle_refl.
  - pose proof (round_le_grid x 0 (Float.exponent prec emin x) N (Z.le_refl _)) as G.
    setoid_replace (inject_Z 0 * Float.pow2 (Float.exponent prec emin x))%Q with 0%Q in G
      by ring.
    now apply G.
Qed.

Lemma exponent_mono x y :
  (0 < x)%Q -> (x <= y)%Q -> Float.exponent prec emin x <= Float.exponent prec emin y.
Proof.
  intros P L. unfold Float.exponent.
  assert (0 < y)%Q as Py by lra.
  assert (Float.ilog2 (Qabs x) <= Float.ilog2 (Qabs y)); [|lia].
  apply ilog2_mono.
  - apply Qabs_nonzero. intros C. rewrite C in P. discriminate P.
  - rewrite !Qabs_pos by lra. exact L.
Qed.

Lemma round_mono_pos x y :
  (0 < x)%Q -> (x <= y)%Q -> (Float.round prec emin x <= Float.round prec emin y)%Q.
Proof.
  intros P L.
  assert (0 < y)%Q as Py by lra.
  assert (~ x == 0)%Q as Nx by (intros C; rewrite C in P; discriminate P).
  assert (~ y == 0)%Q as Ny by (intros C; rewrite C in Py; discriminate Py).
  pose proof (exponent_mono x y P L) as Q.
  destruct (Z.eq_dec (Float.exponent prec emin x) (Float.exponent prec emin y)) as [E|N].
  - rewrite (round_nonzero x Nx), (round_nonzero y Ny), E.
    apply Qmult_le_r; [apply pow2_pos|]. rewrite <- Zle_Qle.
    apply rne_mono. now apply Qdiv_pow2_le.
  - (* the binade of y starts at a point of both grids *)
    set (k := Float.ilog2 (Qabs y)).
    assert (Float.exponent prec emin y = k - (prec - 1)) as Ey.
    { unfold Float.exponent in *. fold k. fold k in Q, N. lia. }
    assert (Float.ilog2 (Qabs x) < k) as Lx.
    { unfold Float.exponent in Q, N, Ey. fold k in Q, N, Ey. lia. }
    destruct (ilog2_spec (Qabs x) (Qabs_nonzero x Nx)) as [_ Ux].
    destruct (ilog2_spec (Qabs y) (Qabs_nonzero y Ny)) as [Ly _]. fold k in Ly.
    pose proof (Qabs_pos x (Qlt_le_weak _ _ P)) as Ax.
    pose proof (Qabs_pos y (Qlt_le_weak _ _ Py)) as Ay.
    assert (Float.pow2 (Float.ilog2 (Qabs x) + 1) <= Float.pow2 k)%Q as Pk
      by (apply pow2_le; lia).
    assert (x <= inject_Z 1 * Float.pow2 k)%Q as B1
      by (change (inject_Z 1) with 1%Q; lra).
    assert (inject_Z 1 * Float.pow2 k <= y)%Q as B2
      by (change (inject_Z 1) with 1%Q; lra).
    eapply Qle_trans.
    + apply (round_le_grid x 1 k Nx); [lia | exact B1].
    + apply (round_ge_grid y 1 k Ny); [lia | exact B2].
Qed.

Lemma round_mono x y :
  (x <= y)%Q -> (Float.round prec emin x <= Float.round prec emin y)%Q.
Proof.
  intros L.
  destruct (Qlt_le_dec 0 x) as [Px|Nx].
  - now apply round_mono_pos.
  - destruct (Qlt_le_dec y 0) as [Ny|Py].
    + assert (- Float.round prec emin y <= - Float.round prec emin x)%Q as H.
      { rewrite <- !round_opp. apply round_mono_pos; lra. }
      lra.
    + eapply Qle_trans; [now apply round_nonpos | now apply round_nonneg].
Qed.

Lemma round_error x :
  ~ (x == 0)%Q ->
  (x - Float.pow2 (Float.exponent prec emin x) * (1 # 2)
   <= Float.round prec emin x
   <= x + Float.pow2 (Float.exponent prec emin x) * (1 # 2))%Q.
Proof.
  intros N. rewrite (round_nonzero x N).
  set (q := Float.exponent prec emin x).
  pose proof (rne_bounds (x / Float.pow2 q)) as [B1 B2].
  pose proof (pow2_pos q) as P.
  pose proof (Qdiv_pow2 x q) as D.
  set (r := inject_Z (Float.rne (x / Float.pow2 q))) in *.
  set (t := (x / Float.pow2 q)%Q) in *.
  set (w := Float.pow2 q) in *.
  split; nra.
Qed.

Lemma exponent_below x k :
  ~ (x == 0)%Q -> (Qabs x < Float.pow2 (k + 1))%Q ->
  Float.exponent prec emin x <= Z.max (k - (prec - 1)) emin.
Proof.
  intros N U. unfold Float.exponent.
  destruct (ilog2_spec (Qabs x) (Qabs_nonzero x N)) as [L _].
  assert (Float.ilog2 (Qabs x) < k + 1); [|lia].
  apply pow2_lt_inv. eapply Qle_lt_trans; eassumption.
Qed.

End Rounding.

Lemma fl64_error x :
  (-4 <= x <= 4)%Q ->
  (x - Float.pow2 (-51) <= Float.fl64 x <= x + Float.pow2 (-51))%Q.
Proof.
  intros [L U]. unfold Float.fl64.
  pose proof (pow2_pos (-51)) as P51.
  destruct (Qeq_dec x 0) as [E|N].
  - rewrite (round_zero 53 (-1074) x E). lra.
  - pose proof (round_error 53 (-1074) x N) as [E1 E2].
    assert (Float.exponent 53 (-1074) x <= -50) as Q.
    { assert (Qabs x < Float.pow2 (2 + 1))%Q as A.
      { apply Qabs_Qlt_condition. change (Float.pow2 (2 + 1)) with (8 # 1)%Q. lra. }
      pose proof (exponent_below 53 (-1074) x 2 N A). lia. }
    apply pow2_le in Q.
    assert (Float.pow2 (-50) * (1 # 2) == Float.pow2 (-51))%Q as H by reflexivity.
    lra.
Qed.

Lemma fl64_mono x y : (x <= y)%Q -> (Float.fl64 x <= Float.fl64 y)%Q.
Proof. intros H. apply round_mono; [reflexivity | exact H]. Qed.

Lemma fl32_mono x y : (x <= y)%Q -> (Float.fl32 x <= Float.fl32 y)%Q.
Proof. intros H. apply round_mono; [reflexivity | exact H]. Qed.

Lemma interpolation_in_unit_range a b t :
  (-1 <= a <= 1)%Q -> (-1 <= b <= 1)%Q -> (0 <= t <= 1)%Q ->
  (-1 <= Float.fl32 (Float.fl64 (a + Float.fl64 (Float.fl64 (b - a) * t))) <= 1)%Q.
Proof.
  intros [A1 A2] [B1 B2] [T1 T2].
  pose proof (pow2_pos (-51)) as P51.
  assert (Float.pow2 (-50) == 2 * Float.pow2 (-51))%Q as P50 by reflexivity.
  set (d := Float.fl64 (b - a)).
  set (p := Float.fl64 (d * t)).
  assert (Float.pow2 (-51) <= 1)%Q as Small by (vm_compute; discriminate).
  assert (b - a - Float.pow2 (-51) <= d <= b - a + Float.pow2 (-51))%Q as [D1 D2]
    by (apply fl64_error; lra).
  assert (- 1 - Float.pow2 (-50) <= a + p <= 1 + Float.pow2 (-50))%Q as [R1 R2].
  { destruct (Qlt_le_dec (b - a) 0) as [Neg|Pos].
    - assert (d <= 0)%Q as D0 by (apply round_nonpos; lra).
      assert (p <= 0)%Q as P0 by (apply round_nonpos; nra).
      assert (Float.fl64 d <= p)%Q as P1 by (apply fl64_mono; nra).
      assert (d - Float.pow2 (-51) <= Float.fl64 d)%Q as P2 by (apply fl64_error; lra).
      lra.
    - assert (0 <= d)%Q as D0 by (apply round_nonneg; lra).
      assert (0 <= p)%Q as P0 by (apply round_nonneg; nra).
      assert (p <= Float.fl64 d)%Q as P1 by (apply fl64_mono; nra).
      assert (Float.fl64 d <= d + Float.pow2 (-51))%Q as P2 by (apply fl64_error; lra).
      lra. }
  split.
  - apply Qle_trans with (Float.fl32 (Float.fl64 (- 1 - Float.pow2 (-50)))).
    + vm_compute. discriminate.
    + apply fl32_mono, fl64_mono, R1.
  - apply Qle_trans with (Float.fl32 (Float.fl64 (1 + Float.pow2 (-50)))).
    + apply fl32_mono, fl64_mono, R2.
    + vm_compute. discriminate.
Qed.

Lemma fl64_comp (x y : Q) : (x == y)%Q -> Float.fl64 x = Float.fl64 y.
Proof. apply round_comp. Qed.

Lemma fl32_comp (x y : Q) : (x == y)%Q -> Float.fl32 x = Float.fl32 y.
Proof. apply round_comp. Qed.

#[global] Instance fl64_Proper : Proper (Qeq ==> Qeq) Float.fl64.
Proof. intros x y E. now rewrite (fl64_comp x y E). Qed.

#[global] Instance fl32_Proper : Proper (Qeq ==> Qeq) Float.fl32.
Proof. intros x y E. now rewrite (fl32_comp x y E). Qed.

Lemma fl64_nonneg (x : Q) : (0 <= x)%Q -> (0 <= Float.fl64 x)%Q.
Proof. apply round_nonneg. Qed.

Lemma fraction_of_position (pos : Q) : (0 <= pos - inject_Z (Qfloor pos) <= 1)%Q.
Proof.
  pose proof (Qfloor_le pos) as A. pose proof (Qlt_floor pos) as B.
  rewrite inject_Z_plus in B. change (inject_Z 1) with 1%Q in B. lra.
Qed.

(** The fraction [pos - floor(pos)], once rounded, is still in [0, 1]. *)
Lemma rounded_fraction (pos : Q) :
  (0 <= Float.fl64 (pos - inject_Z (Qfloor pos)) <= 1)%Q.
Proof.
  destruct (fraction_of_position pos) as [A B]. split.
  - now apply fl64_nonneg.
  - apply Qle_trans with (Float.fl64 1); [now apply fl64_mono|].
    vm_compute. discriminate.
Qed.


Lemma number_inv (x y : Q) : Float.number x = Some y -> y = Float.fl64 x.
Proof. unfold Float.number. destruct (Float.finite x); congruence. Qed.


Lemma divide_inv (x y r : Q) : JS.divide x y = Some r -> r = Float.fl64 (x / y).
Proof.
  unfold JS.divide. destruct (Qeq_bool y 0); [discriminate | apply number_inv].
Qed.


Lemma ToIndex_inv (n m : Z) :
  JS.ToIndex n = Some m -> m = n /\ 0 <= n <= 9007199254740991.
Proof.
  unfold JS.ToIndex.
  destruct (Z.ltb_spec n 0) as [A|A]; [discriminate|].
  destruct (Z.ltb_spec 9007199254740991 n) as [B|B]; [discriminate|].
  intros E. injection E as <-. lia.
Qed.




(** ** The two resamplers (section 4.4) *)

Lemma Qeq_bool_false (a b : Q) : ~ (a == b)%Q -> Qeq_bool a b = false.
Proof.
  intros N. destruct (Qeq_bool a b) eqn:E; [|reflexivity].
  apply Qeq_bool_iff in E. contradiction.
Qed.



(** Whatever [resample] returns is its input (equal rates), the empty
    array (an infinite ratio and an empty input), or the array of the loop,
    whose length and elements are computed with the rounded ratio. *)
Lemma resample_inv (input : list Q) (Rin Rout : Q) (out : list Q) :
  ResamplerProcessor.resample input Rin Rout = Some out ->
  ((Rin == Rout)%Q /\ out = input)
  \/ (~ (Rin == Rout)%Q
      /\ (out = []
          \/ out = JS.tabulate (JS.Math_round (Spec.scaled64 input Rin Rout))
                     (ResamplerProcessor.resample_at input (Spec.ratio64 Rin Rout)))).
Proof.
  unfold ResamplerProcessor.resample.
  destruct (Qeq_bool Rin Rout) eqn:E.
  - intros H. injection H as <-. left. split; [now apply Qeq_bool_iff | reflexivity].
  - intros H. right.
    split; [intros C; apply Qeq_bool_iff in C; congruence|].
    destruct (JS.divide Rout Rin) as [ratio|] eqn:D.
    + apply divide_inv in D.
      destruct (Float.number _) as [scaled|] eqn:S; [|discriminate].
      apply number_inv in S.
      destruct (JS.ToIndex _) as [n|] eqn:T; [|discriminate].
      apply ToIndex_inv in T. destruct T as [-> _].
      injection H as <-. right. subst. reflexivity.
    + destruct (Nat.eqb _ 0); [|discriminate]. injection H as <-. now left.
Qed.

Lemma resampleLinear_inv (input : list Q) (Rin Rout : Q) (out : list Q) :
  PCMPlayer.resampleLinear input Rin Rout = Some out ->
  ((Rin == Rout)%Q /\ out = input)
  \/ (~ (Rin == Rout)%Q
      /\ (out = []
          \/ out = JS.tabulate (JS.Math_floor (Spec.scaled64 input Rin Rout))
                     (PCMPlayer.resampleLinear_at input (Spec.ratio64 Rin Rout)))).
Proof.
  unfold PCMPlayer.resampleLinear.
  destruct (Qeq_bool Rin Rout) eqn:E.
  - intros H. injection H as <-. left. split; [now apply Qeq_bool_iff | reflexivity].
  - intros H. right.
    split; [intros C; apply Qeq_bool_iff in C; congruence|].
    destruct (JS.divide Rout Rin) as [ratio|] eqn:D.
    + apply divide_inv in D.
      destruct (Float.number _) as [scaled|] eqn:S; [|discriminate].
      apply number_inv in S.
      destruct (JS.ToIndex _) as [n|] eqn:T; [|discriminate].
      apply ToIndex_inv in T. destruct T as [-> _].
      injection H as <-. right. subst. reflexivity.
    + destruct (Nat.eqb _ 0); [|discriminate]. injection H as <-. now left.
Qed.





(** The loop body of [resampleLinear]: the same formula when the upper
    sample is there and is not zero; the lower sample, rounded, when the upper
    one is zero or outside the input. *)
Lemma resampleLinear_at_holds (input : list Q) (ratio : Q) (i : Z) :
  let low := Qfloor (Float.fl64 (inject_Z i / ratio)) in
  (JS.or_else (JS.get input (low + 1)) (JS.or_else (JS.get input low) 0)
   == JS.or_else (JS.get input low) 0)%Q ->
  (PCMPlayer.resampleLinear_at input ratio i
   == Float.fl32 (Float.fl64 (Spec.sample input low)))%Q.
Proof.
  intros low H.
  unfold PCMPlayer.resampleLinear_at, JS.Float32_store, JS.Math_floor.
  fold low. rewrite H, or_else_zero.
  set (s0 := Spec.sample input low).
  set (frac := Float.fl64 (Float.fl64 (inject_Z i / ratio) - inject_Z low)).
  assert (s0 - s0 == 0)%Q as Z0 by ring. rewrite Z0.
  change (Float.fl64 0) with 0%Q.
  assert (0 * frac == 0)%Q as Z1 by ring. rewrite Z1.
  change (Float.fl64 0) with 0%Q.
  assert (s0 + 0 == s0)%Q as Z2 by ring. rewrite Z2. reflexivity.
Qed.

Lemma resampleLinear_at_cases (input : list Q) (Rin Rout : Q) (i : nat) :
  let pos := Spec.position64 Rin Rout i in
  let low := Qfloor pos in
  let out :=
    PCMPlayer.resampleLinear_at input (Spec.ratio64 Rin Rout) (Z.of_nat i) in
  (forall v, JS.get input (low + 1) = Some v -> ~ (v == 0)%Q ->
     (out == Spec.interpolate64 input low (low + 1) pos)%Q)
  /\ (forall v, JS.get input (low + 1) = Some v -> (v == 0)%Q ->
        (out == Float.fl32 (Float.fl64 (Spec.sample input low)))%Q)
  /\ (JS.get input (low + 1) = None ->
      (out == Float.fl32 (Float.fl64 (Spec.sample input low)))%Q).
Proof.
  intros pos low out. subst out. split; [|split].
  - intros v Hv Nz.
    unfold PCMPlayer.resampleLinear_at, Spec.interpolate64, JS.Float32_store,
      JS.Math_floor.
    fold (Spec.position64 Rin Rout i). fold pos. fold low.
    assert (Spec.sample input (low + 1) = v) as Sv
      by (unfold Spec.sample; now rewrite Hv).
    assert (forall d, JS.or_else (Some v) d = v) as Ov
      by (intros d; unfold JS.or_else; now rewrite (Qeq_bool_false _ _ Nz)).
    rewrite Sv, Hv, Ov, !or_else_zero. reflexivity.
  - intros v Hv Z0. apply resampleLinear_at_holds.
    fold (Spec.position64 Rin Rout i). fold pos. fold low.
    rewrite Hv. unfold JS.or_else at 1.
    now rewrite (proj2 (Qeq_bool_iff v 0) Z0).
  - intros Hn. apply resampleLinear_at_holds.
    fold (Spec.position64 Rin Rout i). fold pos. fold low.
    rewrite Hn. reflexivity.
Qed.




(** ** Base64 and the wire format *)

Lemma all_below_spec (n : nat) (p : Z -> bool) :
  Enum.all_below n p = true -> forall z, 0 <= z < Z.of_nat n -> p z = true.
Proof.
  unfold Enum.all_below. intros H z Hz.
  rewrite forallb_forall in H.
  specialize (H (Z.to_nat z)). rewrite Z2Nat.id in H by lia.
  apply H, in_seq. lia.
Qed.

Lemma is_byte_range (b : Z) : Base64.is_byte b = true <-> 0 <= b < 256.
Proof. unfold Base64.is_byte. lia. Qed.

Lemma is_sextet_range (s : Z) : Enum.is_sextet s = true <-> 0 <= s < 64.
Proof. unfold Enum.is_sextet. lia. Qed.

Lemma all_bytes_spec (p : Z -> bool) :
  Enum.all_bytes p = true -> forall b, Base64.is_byte b = true -> p b = true.
Proof.
  intros H b Hb. apply (all_below_spec 256 p H). apply is_byte_range in Hb. lia.
Qed.

Lemma all_bytes2_spec (p : Z -> Z -> bool) :
  Enum.all_bytes2 p = true ->
  forall a b, Base64.is_byte a = true -> Base64.is_byte b = true -> p a b = true.
Proof.
  intros H a b Ha Hb.
  apply (all_bytes_spec (p a)); [|exact Hb].
  exact (all_bytes_spec (fun x => Enum.all_bytes (p x)) H a Ha).
Qed.

(** The bit manipulations of one group, each checked on all bytes. *)

Lemma group_head (a b : Z) :
  Base64.is_byte a = true -> Base64.is_byte b = true ->
  let s0 := Z.shiftr a 2 in
  let s1 := Z.lor (Z.shiftl (Z.land a 3) 4) (Z.shiftr b 4) in
  Enum.is_sextet s0 = true /\ Enum.is_sextet s1 = true
  /\ Z.lor (Z.shiftl s0 2) (Z.shiftr s1 4) = a
  /\ Z.land s1 15 = Z.shiftr b 4.
Proof.
  intros Ha Hb.
  pose proof (all_bytes2_spec
    (fun a b =>
       let s0 := Z.shiftr a 2 in
       let s1 := Z.lor (Z.shiftl (Z.land a 3) 4) (Z.shiftr b 4) in
       Enum.is_sextet s0 && Enum.is_sextet s1
       && (Z.lor (Z.shiftl s0 2) (Z.shiftr s1 4) =? a)
       && (Z.land s1 15 =? Z.shiftr b 4))
    ltac:(vm_compute; reflexivity) a b Ha Hb) as H.
  cbv zeta in *. rewrite !andb_true_iff, !Z.eqb_eq in H. tauto.
Qed.

Lemma group_tail (b c : Z) :
  Base64.is_byte b = true -> Base64.is_byte c = true ->
  let s2 := Z.lor (Z.shiftl (Z.land b 15) 2) (Z.shiftr c 6) in
  let s3 := Z.land c 63 in
  Enum.is_sextet s2 = true /\ Enum.is_sextet s3 = true
  /\ Z.lor (Z.shiftl (Z.land s2 3) 6) s3 = c
  /\ Z.shiftr s2 2 = Z.land b 15.
Proof.
  intros Hb Hc.
  pose proof (all_bytes2_spec
    (fun b c =>
       let s2 := Z.lor (Z.shiftl (Z.land b 15) 2) (Z.shiftr c 6) in
       let s3 := Z.land c 63 in
       Enum.is_sextet s2 && Enum.is_sextet s3
       && (Z.lor (Z.shiftl (Z.land s2 3) 6) s3 =? c)
       && (Z.shiftr s2 2 =? Z.land b 15))
    ltac:(vm_compute; reflexivity) b c Hb Hc) as H.
  cbv zeta in *. rewrite !andb_true_iff, !Z.eqb_eq in H. tauto.
Qed.

Lemma byte_nibbles (b : Z) :
  Base64.is_byte b = true ->
  Z.lor (Z.shiftl (Z.shiftr b 4) 4) (Z.land b 15) = b
  /\ Enum.is_sextet (Z.shiftl (Z.land b 15) 2) = true
  /\ Z.shiftr (Z.shiftl (Z.land b 15) 2) 2 = Z.land b 15
  /\ Enum.is_sextet (Z.shiftl (Z.land b 3) 4) = true
  /\ Z.lor (Z.shiftl (Z.shiftr b 2) 2) (Z.shiftr (Z.shiftl (Z.land b 3) 4) 4) = b
  /\ Enum.is_sextet (Z.shiftr b 2) = true.
Proof.
  intros Hb.
  pose proof (all_bytes_spec
    (fun b =>
       (Z.lor (Z.shiftl (Z.shiftr b 4) 4) (Z.land b 15) =? b)
       && Enum.is_sextet (Z.shiftl (Z.land b 15) 2)
       && (Z.shiftr (Z.shiftl (Z.land b 15) 2) 2 =? Z.land b 15)
       && Enum.is_sextet (Z.shiftl (Z.land b 3) 4)
       && (Z.lor (Z.shiftl (Z.shiftr b 2) 2)
                 (Z.shiftr (Z.shiftl (Z.land b 3) 4) 4) =? b)
       && Enum.is_sextet (Z.shiftr b 2))
    ltac:(vm_compute; reflexivity) b Hb) as H.
  rewrite !andb_true_iff, !Z.eqb_eq in H. tauto.
Qed.

(** The alphabet: 64 distinct characters, none of them [=] or whitespace. *)
Lemma alphabet_roundtrip (s : Z) :
  Enum.is_sextet s = true ->
  Base64.decode_char (Base64.encode_char s) = Some s
  /\ Ascii.eqb (Base64.encode_char s) Base64.pad = false
  /\ Base64.is_whitespace (Base64.encode_char s) = false.
Proof.
  intros Hs. apply is_sextet_range in Hs.
  pose proof (all_below_spec 64
    (fun s =>
       match Base64.decode_char (Base64.encode_char s) with
       | Some v => v =? s
       | None => false
       end
       && negb (Ascii.eqb (Base64.encode_char s) Base64.pad)
       && negb (Base64.is_whitespace (Base64.encode_char s)))
    ltac:(vm_compute; reflexivity) s ltac:(lia)) as H.
  rewrite !andb_true_iff, !negb_true_iff in H. destruct H as [[H1 H2] H3].
  destruct (Base64.decode_char (Base64.encode_char s)) as [v|]; [|discriminate].
  apply Z.eqb_eq in H1. subst v. tauto.
Qed.

Lemma list_ind3 {A : Type} (P : list A -> Prop) :
  P [] -> (forall a, P [a]) -> (forall a b, P [a; b]) ->
  (forall a b c rest, P rest -> P (a :: b :: c :: rest)) ->
  forall l, P l.
Proof.
  intros H0 H1 H2 H3.
  assert (forall l, P l /\ (forall a, P (a :: l)) /\ (forall a b, P (a :: b :: l))) as K.
  { induction l as [|x l [I0 [I1 I2]]].
    - auto.
    - split; [apply I1|]. split; [intros a; apply I2|].
      intros a b. apply H3, I0. }
  intros l. apply K.
Qed.

Lemma mod_skip (k m : nat) : ((m + k) mod m = k mod m)%nat.
Proof.
  replace (m + k)%nat with (k + 1 * m)%nat by lia. apply Nat.Div0.mod_add.
Qed.

(** Encoding bytes gives 6-bit groups from which the bytes are read back;
    their number is never 1 modulo 4, and with the padding it is a multiple
    of 4. *)
Lemma sextets_spec (bs : list Z) :
  forallb Base64.is_byte bs = true ->
  forallb Enum.is_sextet (Base64.sextets bs) = true
  /\ Base64.octets (Base64.sextets bs) = bs
  /\ (List.length (Base64.sextets bs) mod 4 <> 1)%nat
  /\ ((List.length (Base64.sextets bs)
       + List.length (Base64.padding (List.length bs))) mod 4 = 0)%nat
  /\ (Base64.padding (List.length bs) <> [] -> Base64.sextets bs <> []).
Proof.
  induction bs as [|a|a b|a b c rest IH] using list_ind3; intros B.
  - repeat split; try reflexivity; try discriminate. intros H; now elim H.
  - cbn [forallb] in B. rewrite andb_true_r in B.
    destruct (byte_nibbles a B) as (_ & _ & _ & S1 & O0 & S0).
    cbn [Base64.sextets Base64.octets forallb]. rewrite S0, S1, O0.
    repeat split; try reflexivity; discriminate.
  - cbn [forallb] in B. rewrite andb_true_r in B.
    apply andb_true_iff in B. destruct B as [Ba Bb].
    destruct (group_head a b Ba Bb) as (S0 & S1 & O0 & L1).
    destruct (byte_nibbles b Bb) as (N & S2 & R2 & _).
    cbn [Base64.sextets Base64.octets forallb]. cbv zeta in *.
    rewrite S0, S1, S2, O0, L1, R2, N.
    repeat split; try reflexivity; discriminate.
  - cbn [forallb] in B. rewrite !andb_true_iff in B.
    destruct B as (Ba & Bb & Bc & Br).
    destruct (IH Br) as (I1 & I2 & I3 & I4 & I5).
    destruct (group_head a b Ba Bb) as (S0 & S1 & O0 & L1).
    destruct (group_tail b c Bb Bc) as (S2 & S3 & O2 & R2).
    destruct (byte_nibbles b Bb) as (N & _).
    cbn [Base64.sextets Base64.octets forallb List.length]. cbv zeta in *.
    rewrite S0, S1, S2, S3, I1, O0, L1, R2, N, O2, I2.
    assert (Base64.padding (S (S (S (List.length rest))))
            = Base64.padding (List.length rest)) as Pd.
    { unfold Base64.padding.
      change (S (S (S (List.length rest)))) with (3 + List.length rest)%nat.
      now rewrite (mod_skip (List.length rest) 3). }
    rewrite Pd.
    repeat split; try reflexivity.
    + intros E. apply I3.
      rewrite <- (mod_skip (List.length (Base64.sextets rest)) 4). exact E.
    + exact (eq_trans
               (mod_skip (List.length (Base64.sextets rest)
                          + List.length (Base64.padding (List.length rest))) 4)
               I4).
    + discriminate.
Qed.

Lemma decode_encode_chars (groups : list Z) :
  forallb Enum.is_sextet groups = true ->
  Base64.decode_chars (map Base64.encode_char groups) = Some groups.
Proof.
  induction groups as [|s groups IH]; intros H; [reflexivity|].
  cbn [forallb] in H. apply andb_true_iff in H. destruct H as [Hs Hr].
  cbn [map Base64.decode_chars].
  destruct (alphabet_roundtrip s Hs) as (D & _).
  now rewrite D, (IH Hr).
Qed.

Lemma encoded_chars_clean (groups : list Z) :
  forallb Enum.is_sextet groups = true ->
  Forall (fun c => Ascii.eqb c Base64.pad = false
                   /\ Base64.is_whitespace c = false)
         (map Base64.encode_char groups).
Proof.
  induction groups as [|s groups IH]; intros H; [constructor|].
  cbn [forallb] in H. apply andb_true_iff in H. destruct H as [Hs Hr].
  constructor; [|exact (IH Hr)].
  destruct (alphabet_roundtrip s Hs) as (_ & P & W). now split.
Qed.

Lemma filter_keeps_all {A : Type} (f : A -> bool) (l : list A) :
  Forall (fun x => f x = true) l -> filter f l = l.
Proof.
  induction 1 as [|x l Hx _ IH]; [reflexivity|].
  cbn [filter]. now rewrite Hx, IH.
Qed.

Lemma remove_padding_encoded (chars : list ascii) (n : nat) :
  Forall (fun c => Ascii.eqb c Base64.pad = false) chars ->
  ((List.length chars + List.length (Base64.padding n)) mod 4 = 0)%nat ->
  (Base64.padding n <> [] -> chars <> []) ->
  Base64.remove_padding (chars ++ Base64.padding n) = chars.
Proof.
  intros Clean Len Nonempty. unfold Base64.remove_padding.
  rewrite length_app, Len, Nat.eqb_refl, rev_app_distr.
  apply Forall_rev in Clean.
  assert (rev chars = [] -> chars = []) as RevNil.
  { intros E. rewrite <- (rev_involutive chars), E. reflexivity. }
  destruct (Base64.padding n) as [|p1 [|p2 [|p3 ps]]] eqn:Pad.
  - rewrite app_nil_r. cbn [rev app].
    destruct (rev chars) as [|c1 [|c2 r]]; try reflexivity.
    inversion Clean as [|? ? C1 _]; subst. now rewrite C1.
  - assert (p1 = Base64.pad) as ->.
    { unfold Base64.padding in Pad.
      destruct (n mod 3)%nat as [|[|[|?]]]; inversion Pad; reflexivity. }
    cbn [rev app].
    destruct (rev chars) as [|c2 r] eqn:R.
    + exfalso. apply Nonempty; [discriminate | now apply RevNil].
    + inversion Clean as [|? ? C2 _]; subst.
      change (Ascii.eqb Base64.pad Base64.pad) with true. cbv iota.
      rewrite C2. change (rev (c2 :: r) = chars).
      rewrite <- R. apply rev_involutive.
  - assert (p1 = Base64.pad /\ p2 = Base64.pad) as [-> ->].
    { unfold Base64.padding in Pad.
      destruct (n mod 3)%nat as [|[|[|?]]]; inversion Pad; split; reflexivity. }
    cbn [rev app].
    change (Ascii.eqb Base64.pad Base64.pad) with true. cbv iota.
    apply rev_involutive.
  - exfalso. unfold Base64.padding in Pad.
    destruct (n mod 3)%nat as [|[|[|?]]]; discriminate.
Qed.

(** [atob] inverts [btoa] on every binary string. *)
Lemma atob_btoa (bin : list Z) :
  forallb Base64.is_byte bin = true ->
  exists text, Base64.btoa bin = Some text /\ Base64.atob text = Some bin.
Proof.
  intros B. unfold Base64.btoa. rewrite B. eexists. split; [reflexivity|].
  destruct (sextets_spec bin B) as (Sx & Oc & Len1 & Len0 & Ne).
  pose proof (encoded_chars_clean _ Sx) as Clean.
  set (chars := map Base64.encode_char (Base64.sextets bin)) in *.
  unfold Base64.atob. rewrite list_ascii_of_string_of_list_ascii.
  rewrite filter_keeps_all.
  2:{ apply Forall_app. split.
      - eapply Forall_impl; [|exact Clean]. cbv beta. intros c [_ W]. now rewrite W.
      - unfold Base64.padding.
        destruct (List.length bin mod 3)%nat as [|[|[|?]]];
          repeat constructor. }
  rewrite remove_padding_encoded.
  - assert (List.length chars = List.length (Base64.sextets bin)) as L
      by apply length_map.
    rewrite L.
    destruct (Nat.eqb_spec (List.length (Base64.sextets bin) mod 4) 1) as [E|_];
      [contradiction|].
    unfold chars. now rewrite (decode_encode_chars _ Sx), Oc.
  - eapply Forall_impl; [|exact Clean]. cbv beta. intros c [P _]. exact P.
  - unfold chars. now rewrite length_map.
  - intros P E. apply (Ne P). unfold chars in E.
    now apply map_eq_nil in E.
Qed.

(** The two bytes of a 16-bit word, and the word read back from them. *)
Lemma word_of_bytes (hi lo : Z) :
  Base64.is_byte hi = true -> Base64.is_byte lo = true ->
  Z.land (hi * 256 + lo) 255 = lo
  /\ Z.shiftr (hi * 256 + lo) 8 = hi
  /\ Z.lor (Z.shiftl hi 8) lo = hi * 256 + lo.
Proof.
  intros Hh Hl.
  pose proof (all_bytes2_spec
    (fun hi lo =>
       (Z.land (hi * 256 + lo) 255 =? lo)
       && (Z.shiftr (hi * 256 + lo) 8 =? hi)
       && (Z.lor (Z.shiftl hi 8) lo =? hi * 256 + lo))
    ltac:(vm_compute; reflexivity) hi lo Hh Hl) as H.
  rewrite !andb_true_iff, !Z.eqb_eq in H. tauto.
Qed.

Lemma Int16_word_bytes (u : Z) :
  0 <= u < 65536 ->
  Base64.is_byte (Z.land u 255) = true
  /\ Base64.is_byte (Z.shiftr u 8) = true
  /\ Z.lor (Z.shiftl (Z.shiftr u 8) 8) (Z.land u 255) = u.
Proof.
  intros Hu.
  assert (Base64.is_byte (u / 256) = true) as Hh
    by (apply is_byte_range; Z.div_mod_to_equations; lia).
  assert (Base64.is_byte (u mod 256) = true) as Hl
    by (apply is_byte_range; Z.div_mod_to_equations; lia).
  assert (u / 256 * 256 + u mod 256 = u) as E
    by (Z.div_mod_to_equations; lia).
  destruct (word_of_bytes _ _ Hh Hl) as (A & B & C).
  rewrite E in A, B, C. rewrite A, B. now rewrite C.
Qed.

Lemma ToInt16_mod (v : Z) : -32768 <= v <= 32767 -> JS.ToInt16 (v mod 65536) = v.
Proof.
  intros H. unfold JS.ToInt16. cbv zeta.
  rewrite Z.mod_mod by lia.
  destruct (Z.leb_spec 32768 (v mod 65536)); Z.div_mod_to_equations; lia.
Qed.

Lemma Uint8Array_bytes (i16 : list Z) :
  forallb Base64.is_byte (Wire.Uint8Array_of_Int16Array i16) = true.
Proof.
  induction i16 as [|v rest IH]; [reflexivity|].
  unfold Wire.Uint8Array_of_Int16Array in *. cbn [flat_map].
  unfold Wire.Int16_bytes at 1. cbv zeta. cbn [app forallb].
  destruct (Int16_word_bytes (v mod 65536) (Z.mod_pos_bound v 65536 eq_refl))
    as (Lo & Hi & _).
  now rewrite Lo, Hi, IH.
Qed.

Lemma decode_pairs_bytes (i16 : list Z) :
  Forall (fun v => -32768 <= v <= 32767) i16 ->
  Wire.decode_pairs (Wire.Uint8Array_of_Int16Array i16) = i16.
Proof.
  induction 1 as [|v rest Hv _ IH]; [reflexivity|].
  unfold Wire.Uint8Array_of_Int16Array in *. cbn [flat_map].
  unfold Wire.Int16_bytes at 1. cbv zeta. cbn [app Wire.decode_pairs].
  destruct (Int16_word_bytes (v mod 65536) (Z.mod_pos_bound v 65536 eq_refl))
    as (_ & _ & W).
  now rewrite W, (ToInt16_mod v Hv), IH.
Qed.

(** C6.  A buffer of 16-bit samples, encoded as the capture port handler
    encodes a frame (base64 over the little-endian bytes) and decoded as
    [pushTtsChunkBase64] decodes a chunk ([atob], then [(hi << 8) | lo]
    stored into an [Int16Array]), is reproduced exactly, negative samples
    included. *)
Theorem wire_roundtrip (i16 : list Z) :
  Forall (fun v => -32768 <= v <= 32767) i16 ->
  exists text,
    Wire.encode_frame i16 = Some text /\ Wire.decode_chunk text = Some i16.
Proof.
  intros Range.
  destruct (atob_btoa _ (Uint8Array_bytes i16)) as (text & Enc & Dec).
  exists text. split; [exact Enc|].
  unfold Wire.decode_chunk. rewrite Dec.
  now rewrite (decode_pairs_bytes i16 Range).
Qed.

Lemma wire_roundtrip_witness :
  exists text,
    Wire.encode_frame [0; 1; -1; 32767; -32768] = Some text
    /\ Wire.decode_chunk text = Some [0; 1; -1; 32767; -32768].
Proof.
  apply (wire_roundtrip [0; 1; -1; 32767; -32768]).
  repeat constructor; lia.
Defined.

(** ** The playback worklet's output callback (section 4.5) *)

Lemma process_full_block (n : nat) (st : PCMPlayer.state) :
  (n <= List.length (PCMPlayer.buffer st))%nat ->
  PCMPlayer.process n st
  = (PCMPlayer.mkOut (firstn n (PCMPlayer.buffer st)) false,
     PCMPlayer.mk (PCMPlayer.inputRate st) (skipn n (PCMPlayer.buffer st))
                  (PCMPlayer.ended st)).
Proof.
  intros H. unfold PCMPlayer.process.
  now rewrite (proj2 (Nat.leb_le _ _) H).
Qed.

Lemma process_underrun (n : nat) (st : PCMPlayer.state) :
  (List.length (PCMPlayer.buffer st) < n)%nat ->
  PCMPlayer.process n st
  = (PCMPlayer.mkOut
       (PCMPlayer.buffer st
        ++ repeat 0%Q (n - List.length (PCMPlayer.buffer st)))
       (PCMPlayer.ended st),
     PCMPlayer.mk (PCMPlayer.inputRate st) [] false).
Proof.
  intros H. unfold PCMPlayer.process.
  now rewrite (proj2 (Nat.leb_gt _ _) H).
Qed.

Lemma process_posts_iff (n : nat) (st : PCMPlayer.state) :
  PCMPlayer.posted_ended (fst (PCMPlayer.process n st)) = true
  <-> (List.length (PCMPlayer.buffer st) < n)%nat /\ PCMPlayer.ended st = true.
Proof.
  destruct (Nat.le_gt_cases n (List.length (PCMPlayer.buffer st))) as [F|U].
  - rewrite process_full_block by exact F. cbn. split; [discriminate | lia].
  - rewrite process_underrun by exact U. cbn. tauto.
Qed.

Lemma firstn_plus {A : Type} (n m : nat) (l : list A) :
  firstn (n + m) l = firstn n l ++ firstn m (skipn n l).
Proof.
  revert l. induction n as [|n IH]; intros l; [reflexivity|].
  destruct l as [|x l]; cbn [Nat.add firstn skipn app].
  - now rewrite firstn_nil.
  - now rewrite IH.
Qed.

Lemma skipn_plus {A : Type} (n m : nat) (l : list A) :
  skipn (n + m) l = skipn m (skipn n l).
Proof.
  revert l. induction n as [|n IH]; intros l; [reflexivity|].
  destruct l as [|x l]; cbn [Nat.add skipn].
  - now rewrite skipn_nil.
  - apply IH.
Qed.

(** While whole blocks remain, [k] callbacks in a row play the first
    [k * n] samples, post nothing and leave the end marker as it is. *)
Lemma run_full_blocks (sr : Q) (n k : nat) (st : PCMPlayer.state) :
  (k * n <= List.length (PCMPlayer.buffer st))%nat ->
  let (os, st') := PCMPlayer.run sr (repeat (PCMPlayer.render n) k) st in
  List.length os = k
  /\ Forall (fun o => PCMPlayer.posted_ended o = false) os
  /\ concat (map PCMPlayer.block os) = firstn (k * n) (PCMPlayer.buffer st)
  /\ st' = PCMPlayer.mk (PCMPlayer.inputRate st)
                        (skipn (k * n) (PCMPlayer.buffer st))
                        (PCMPlayer.ended st).
Proof.
  revert st. induction k as [|k IH]; intros st H.
  - cbn. repeat split; try constructor. now destruct st.
  - cbn [repeat PCMPlayer.run].
    rewrite process_full_block by lia.
    set (st1 := PCMPlayer.mk _ _ _).
    specialize (IH st1).
    destruct (PCMPlayer.run sr (repeat (PCMPlayer.render n) k) st1) as [os st2].
    destruct IH as (L & F & C & E).
    { subst st1. cbn [PCMPlayer.buffer]. rewrite length_skipn. lia. }
    subst st1. cbn [PCMPlayer.buffer PCMPlayer.inputRate PCMPlayer.ended] in *.
    repeat split.
    + cbn. now rewrite L.
    + constructor; [reflexivity | exact F].
    + cbn [map concat PCMPlayer.block]. rewrite C.
      change (S k * n)%nat with (n + k * n)%nat. now rewrite firstn_plus.
    + rewrite E. change (S k * n)%nat with (n + k * n)%nat.
      now rewrite skipn_plus.
Qed.

Lemma run_app (sr : Q) (evs1 evs2 : list PCMPlayer.event) (st : PCMPlayer.state) :
  PCMPlayer.run sr (evs1 ++ evs2) st
  = let (os1, st1) := PCMPlayer.run sr evs1 st in
    let (os2, st2) := PCMPlayer.run sr evs2 st1 in
    (os1 ++ os2, st2).
Proof.
  revert st. induction evs1 as [|e evs1 IH]; intros st.
  - cbn. now destruct (PCMPlayer.run sr evs2 st).
  - destruct e as [m|n]; cbn [app PCMPlayer.run].
    + apply IH.
    + destruct (PCMPlayer.process n st) as [o st1]. rewrite IH.
      destruct (PCMPlayer.run sr evs1 st1) as [os1 st2].
      now destruct (PCMPlayer.run sr evs2 st2).
Qed.

(** C8.  The arrival of the end marker only sets the flag.  A callback
    posts ['ended'] exactly when the buffer is short of a full block while
    the flag is set; with a full block it plays the block and keeps the
    flag, with a short buffer it plays what is left followed by zeros.  So
    from a set flag and a buffer of [len] samples, the first [len / n]
    callbacks post nothing, the next one posts, and by then every buffered
    sample has been played. *)
Theorem end_of_stream_reported_after_drain
        (sr : Q) (n : nat) (st : PCMPlayer.state) :
  PCMPlayer.run sr [PCMPlayer.message PCMPlayer.end_] st
  = ([], PCMPlayer.mk (PCMPlayer.inputRate st) (PCMPlayer.buffer st) true)
  /\ (PCMPlayer.posted_ended (fst (PCMPlayer.process n st)) = true
      <-> (List.length (PCMPlayer.buffer st) < n)%nat
          /\ PCMPlayer.ended st = true)
  /\ ((n <= List.length (PCMPlayer.buffer st))%nat ->
      PCMPlayer.process n st
      = (PCMPlayer.mkOut (firstn n (PCMPlayer.buffer st)) false,
         PCMPlayer.mk (PCMPlayer.inputRate st)
                      (skipn n (PCMPlayer.buffer st)) (PCMPlayer.ended st)))
  /\ ((List.length (PCMPlayer.buffer st) < n)%nat ->
      PCMPlayer.process n st
      = (PCMPlayer.mkOut
           (PCMPlayer.buffer st
            ++ repeat 0%Q (n - List.length (PCMPlayer.buffer st)))
           (PCMPlayer.ended st),
         PCMPlayer.mk (PCMPlayer.inputRate st) [] false))
  /\ ((0 < n)%nat -> PCMPlayer.ended st = true ->
      let len := List.length (PCMPlayer.buffer st) in
      exists os last st',
        PCMPlayer.run sr (repeat (PCMPlayer.render n) (S (len / n))) st
        = (os ++ [last], st')
        /\ List.length os = (len / n)%nat
        /\ Forall (fun o => PCMPlayer.posted_ended o = false) os
        /\ PCMPlayer.posted_ended last = true
        /\ concat (map PCMPlayer.block (os ++ [last]))
           = PCMPlayer.buffer st ++ repeat 0%Q (n - len mod n)
        /\ PCMPlayer.buffer st' = []
        /\ PCMPlayer.ended st' = false).
Proof.
  split; [reflexivity|].
  split; [apply process_posts_iff|].
  split; [apply process_full_block|].
  split; [apply process_underrun|].
  intros Hn He len.
  set (k := (len / n)%nat).
  assert (k * n <= len)%nat as Hk
    by (subst k; rewrite Nat.mul_comm; apply Nat.Div0.mul_div_le).
  assert (len - k * n = len mod n)%nat as Hm
    by (subst k; rewrite Nat.Div0.mod_eq, (Nat.mul_comm n); reflexivity).
  assert (len mod n < n)%nat as Hlt by (apply Nat.mod_upper_bound; lia).
  pose proof (run_full_blocks sr n k st Hk) as F.
  change (S k) with (1 + k)%nat.
  rewrite Nat.add_comm, repeat_app, run_app.
  destruct (PCMPlayer.run sr (repeat (PCMPlayer.render n) k) st) as [os st1].
  destruct F as (L & NoPost & Played & E).
  cbn [repeat PCMPlayer.run].
  assert (List.length (PCMPlayer.buffer st1) = len mod n)%nat as Rest.
  { rewrite E. cbn [PCMPlayer.buffer]. rewrite length_skipn. exact Hm. }
  rewrite process_underrun by (rewrite Rest; exact Hlt).
  eexists os, _, _. split; [reflexivity|].
  split; [exact L|]. split; [exact NoPost|].
  split; [rewrite E; exact He|].
  split; [|split; reflexivity].
  rewrite map_app, concat_app, Played. cbn [map concat PCMPlayer.block].
  rewrite app_nil_r, Rest, E. cbn [PCMPlayer.buffer].
  now rewrite app_assoc, firstn_skipn.
Qed.

Lemma end_of_stream_reported_after_drain_witness :
  let st := PCMPlayer.mk 24000 [1; 2; 3; 4; 5]%Q true in
  exists os last st',
    PCMPlayer.run 48000 (repeat (PCMPlayer.render 2) 3) st = (os ++ [last], st')
    /\ List.length os = 2%nat
    /\ Forall (fun o => PCMPlayer.posted_ended o = false) os
    /\ PCMPlayer.posted_ended last = true
    /\ concat (map PCMPlayer.block (os ++ [last]))
       = [1; 2; 3; 4; 5]%Q ++ repeat 0%Q 1
    /\ PCMPlayer.buffer st' = []
    /\ PCMPlayer.ended st' = false.
Proof.
  intros st.
  destruct (end_of_stream_reported_after_drain 48000 2 st) as (_ & _ & _ & _ & Drain).
  exact (Drain ltac:(lia) eq_refl).
Defined.

Lemma onmessage_chunk_ended (sr : Q) (d : list Z) (st : PCMPlayer.state) :
  PCMPlayer.ended (PCMPlayer.onmessage sr (PCMPlayer.chunk d) st)
  = PCMPlayer.ended st.
Proof.
  cbn [PCMPlayer.onmessage].
  destruct (PCMPlayer.resampleLinear _ _ _); reflexivity.
Qed.

(** C10.  A callback that posts ['ended'] clears the flag in the same
    step; without a new ['end'] message no later callback posts; and over any
    sequence of messages and callbacks there are no more notifications than
    end markers (counting a marker already set at the start). *)
Theorem ended_posted_at_most_once_per_marker
        (sr : Q) (evs : list PCMPlayer.event) (n : nat) (st : PCMPlayer.state) :
  (PCMPlayer.posted_ended (fst (PCMPlayer.process n st)) = true ->
   PCMPlayer.ended (snd (PCMPlayer.process n st)) = false)
  /\ (PCMPlayer.notifications (fst (PCMPlayer.run sr evs st))
      + Nat.b2n (PCMPlayer.ended (snd (PCMPlayer.run sr evs st)))
      <= PCMPlayer.end_markers evs + Nat.b2n (PCMPlayer.ended st))%nat
  /\ (PCMPlayer.ended st = false -> PCMPlayer.end_markers evs = 0%nat ->
      PCMPlayer.notifications (fst (PCMPlayer.run sr evs st)) = 0%nat).
Proof.
  assert (forall evs st,
             (PCMPlayer.notifications (fst (PCMPlayer.run sr evs st))
              + Nat.b2n (PCMPlayer.ended (snd (PCMPlayer.run sr evs st)))
              <= PCMPlayer.end_markers evs + Nat.b2n (PCMPlayer.ended st))%nat)
    as Bound.
  { clear. induction evs as [|e evs IH]; intros st.
    - cbn. lia.
    - destruct e as [m|k].
      + cbn [PCMPlayer.run]. specialize (IH (PCMPlayer.onmessage sr m st)).
        destruct m as [d| |]; try rewrite onmessage_chunk_ended in IH;
          unfold PCMPlayer.end_markers in *;
          cbn [filter PCMPlayer.is_end List.length] in *;
          try (cbn [PCMPlayer.onmessage PCMPlayer.ended] in * );
          destruct (PCMPlayer.ended st); cbn [Nat.b2n] in *; lia.
      + cbn [PCMPlayer.run].
        unfold PCMPlayer.end_markers in *. cbn [filter PCMPlayer.is_end].
        destruct (Nat.le_gt_cases k (List.length (PCMPlayer.buffer st))) as [F|U].
        * rewrite process_full_block by exact F.
          specialize (IH (PCMPlayer.mk (PCMPlayer.inputRate st)
                            (skipn k (PCMPlayer.buffer st)) (PCMPlayer.ended st))).
          destruct (PCMPlayer.run sr evs _) as [os st2].
          unfold PCMPlayer.notifications in *.
          cbn [fst snd filter PCMPlayer.posted_ended PCMPlayer.ended] in *. exact IH.
        * rewrite process_underrun by exact U.
          specialize (IH (PCMPlayer.mk (PCMPlayer.inputRate st) [] false)).
          destruct (PCMPlayer.run sr evs _) as [os st2].
          unfold PCMPlayer.notifications in *.
          cbn [fst snd filter PCMPlayer.posted_ended PCMPlayer.ended] in *.
          destruct (PCMPlayer.ended st); cbn [List.length Nat.b2n] in *; lia. }
  split; [|split].
  - intros P. apply process_posts_iff in P. destruct P as [U _].
    now rewrite process_underrun by exact U.
  - apply Bound.
  - intros E M. specialize (Bound evs st). rewrite E, M in Bound. cbn in Bound. lia.
Qed.

(** A buffer of five samples with the end marker set, played in blocks of
    two: two full blocks, then the short block that carries the
    notification, then silence without one. *)
Example playback_drains_before_notifying :
  map PCMPlayer.posted_ended
      (fst (PCMPlayer.run 48000
              (repeat (PCMPlayer.render 2) 4)
              (PCMPlayer.mk 24000 [1; 2; 3; 4; 5]%Q true)))
  = [false; false; true; false]
  /\ concat (map PCMPlayer.block
               (fst (PCMPlayer.run 48000
                       (repeat (PCMPlayer.render 2) 4)
                       (PCMPlayer.mk 24000 [1; 2; 3; 4; 5]%Q true))))
     = [1; 2; 3; 4; 5; 0; 0; 0]%Q.
Proof. split; reflexivity. Qed.

Lemma ended_posted_at_most_once_per_marker_witness :
  let after_notification :=
    snd (PCMPlayer.process 2 (PCMPlayer.mk 24000 [1]%Q true)) in
  PCMPlayer.ended after_notification = false
  /\ PCMPlayer.notifications
       (fst (PCMPlayer.run 24000
               [PCMPlayer.render 2; PCMPlayer.message (PCMPlayer.chunk [16384]);
                PCMPlayer.render 2; PCMPlayer.render 2]
               after_notification)) = 0%nat.
Proof.
  intros after_notification. split.
  - apply (proj1 (ended_posted_at_most_once_per_marker
                    24000 [] 2 (PCMPlayer.mk 24000 [1]%Q true))).
    reflexivity.
  - apply (proj2 (proj2 (ended_posted_at_most_once_per_marker
                           24000
                           [PCMPlayer.render 2;
                            PCMPlayer.message (PCMPlayer.chunk [16384]);
                            PCMPlayer.render 2; PCMPlayer.render 2]
                           2 after_notification))); reflexivity.
Defined.

(** ** The controller *)

Lemma Status_eqb_eq (a b : Session.Status) :
  Session.Status_eqb a b = true <-> a = b.
Proof. destruct a, b; cbn; split; intros H; try reflexivity; discriminate. Qed.

Lemma Status_eqb_neq (a b : Session.Status) :
  Session.Status_eqb a b = false <-> a <> b.
Proof.
  destruct a, b; cbn; split; intros H; try reflexivity; try discriminate;
    try (intros E; discriminate); now elim H.
Qed.

Lemma socket_is_open_iff (s : Session.t) :
  Session.socket_is_open s = true <-> Session.socket s = Some Session.OPEN.
Proof.
  unfold Session.socket_is_open.
  destruct (Session.socket s) as [[| | |]|]; split; intros H;
    try reflexivity; discriminate.
Qed.

Lemma encode_frame_total (frame : list Z) :
  exists b64, Wire.encode_frame frame = Some b64.
Proof.
  destruct (atob_btoa _ (Uint8Array_bytes frame)) as (text & Enc & _).
  now exists text.
Qed.

(** C2.  The capture port handler sends the frame when the capture lock is
    unset and the connection exists and is open, and only then; in every
    other case it returns the session as it was: nothing is sent and nothing
    is kept for later. *)
Theorem frame_sent_only_when_unlocked_and_open
        (frame : list Z) (s : Session.t) :
  (Session.sttLocked s = false /\ Session.socket s = Some Session.OPEN ->
   exists b64,
     Wire.encode_frame frame = Some b64
     /\ Session.userWorkletNode_onmessage frame s
        = Session.emit (Session.socket_send b64) s)
  /\ (Session.sttLocked s = true \/ Session.socket s <> Some Session.OPEN ->
      Session.userWorkletNode_onmessage frame s = s)
  /\ (Session.trace (Session.userWorkletNode_onmessage frame s)
      <> Session.trace s ->
      Session.sttLocked s = false /\ Session.socket s = Some Session.OPEN).
Proof.
  unfold Session.userWorkletNode_onmessage.
  pose proof (socket_is_open_iff s) as O.
  destruct (encode_frame_total frame) as [b64 E]. rewrite E.
  destruct (Session.sttLocked s), (Session.socket_is_open s); cbn [orb negb].
  - split; [intros [L _]; discriminate|]. split; [reflexivity|].
    intros N; now elim N.
  - split; [intros [L _]; discriminate|]. split; [reflexivity|].
    intros N; now elim N.
  - split; [intros _; now exists b64|].
    split; [|intros _; split; [reflexivity | now apply O]].
    intros [L|N]; [discriminate|]. elim N. now apply O.
  - split; [intros [_ S]; apply O in S; discriminate|].
    split; [reflexivity|]. intros N; now elim N.
Qed.

Lemma frame_sent_only_when_unlocked_and_open_witness :
  let listening_session :=
    Session.run [Session.toggle; Session.opened true] Session.init in
  let locked_session :=
    Session.step (Session.message Session.stt_end) listening_session in
  (exists b64,
      Wire.encode_frame [1; -2] = Some b64
      /\ Session.userWorkletNode_onmessage [1; -2] listening_session
         = Session.emit (Session.socket_send b64) listening_session)
  /\ Session.userWorkletNode_onmessage [1; -2] locked_session = locked_session
  /\ Session.userWorkletNode_onmessage [1; -2] Session.init = Session.init.
Proof.
  intros listening_session locked_session. split; [|split].
  - apply (proj1 (frame_sent_only_when_unlocked_and_open [1; -2] listening_session)).
    split; reflexivity.
  - apply (proj1 (proj2 (frame_sent_only_when_unlocked_and_open [1; -2] locked_session))).
    left. reflexivity.
  - apply (proj1 (proj2 (frame_sent_only_when_unlocked_and_open [1; -2] Session.init))).
    right. discriminate.
Defined.

(** *** Teardown *)

(** From any status but [idle], [stopSession] releases what the session
    holds, each resource once, and resets the session. *)
Lemma stopSession_releases (s : Session.t) :
  Session.status s <> Session.idle ->
  Session.stopSession s
  = Session.mk Session.idle (Session.finalAnswer s) false false None
               (Session.audioContext s) false false None false false false
               (Session.trace s ++ Session.releases s).
Proof.
  intros H. apply Status_eqb_neq in H.
  unfold Session.stopSession. rewrite H. clear H.
  destruct s as [st fa ua aa so ac usn uwn ms twn lk pl tr].
  unfold Session.releases.
  destruct so, ms, usn, uwn, twn; cbv beta iota zeta delta -[app];
    rewrite <- ?app_assoc, ?app_nil_r; reflexivity.
Qed.

(** A second teardown does nothing. *)
Lemma stopSession_idempotent (s : Session.t) :
  Session.stopSession (Session.stopSession s) = Session.stopSession s.
Proof.
  destruct (Session.Status_eqb (Session.status s) Session.idle) eqn:E.
  - unfold Session.stopSession at 2. rewrite E.
    unfold Session.stopSession. now rewrite E.
  - apply Status_eqb_neq in E. rewrite (stopSession_releases s E). reflexivity.
Qed.

(** C9.  [toggleSession] looks at [status] alone.  In [idle] it is
    [startSession]: the status becomes [connecting], an audio context is
    created and the connection is opened, and nothing else changes.  In
    every other status it is [stopSession], the teardown: the status becomes
    [idle], the connection, the stream and the three nodes are dropped, each
    one held being released once, in this order, the lock and the playback
    flag are cleared and both analysers reset.  [startSession] outside [idle]
    and [stopSession] in [idle] return the session unchanged. *)
Theorem toggle_starts_when_idle_and_stops_otherwise (s : Session.t) :
  (Session.status s = Session.idle ->
   Session.toggleSession s = Session.startSession s
   /\ Session.toggleSession s
      = Session.mk Session.connecting (Session.finalAnswer s)
          (Session.userAnalyser s) (Session.aiAnalyser s)
          (Some Session.CONNECTING) true
          (Session.userSourceNode s) (Session.userWorkletNode s)
          (Session.mediaStream s) (Session.ttsWorkletNode s)
          (Session.sttLocked s) (Session.ttsPlaying s)
          (Session.trace s ++ [Session.WebSocket_new]))
  /\ (Session.status s <> Session.idle ->
      Session.toggleSession s = Session.stopSession s
      /\ Session.toggleSession s
         = Session.mk Session.idle (Session.finalAnswer s) false false None
             (Session.audioContext s) false false None false false false
             (Session.trace s ++ Session.releases s)
      /\ Session.releases s
         = (match Session.socket s with
            | Some _ => [Session.socket_close] | None => [] end)
           ++ (match Session.mediaStream s with
               | Some _ => [Session.track_stop] | None => [] end)
           ++ (if Session.userSourceNode s
               then [Session.userSourceNode_disconnect] else [])
           ++ (if Session.userWorkletNode s
               then [Session.userWorkletNode_disconnect] else [])
           ++ (if Session.ttsWorkletNode s
               then [Session.ttsWorkletNode_disconnect] else []))
  /\ (Session.status s <> Session.idle -> Session.startSession s = s)
  /\ (Session.status s = Session.idle -> Session.stopSession s = s).
Proof.
  split; [|split; [|split]]; intros H.
  - unfold Session.toggleSession, Session.startSession. rewrite H.
    split; [reflexivity|].
    destruct s as [st fa ua aa so ac usn uwn ms twn lk pl tr]. reflexivity.
  - assert (Session.toggleSession s = Session.stopSession s) as E.
    { unfold Session.toggleSession.
      now rewrite (proj2 (Status_eqb_neq _ _) H). }
    split; [exact E|]. split; [|reflexivity].
    rewrite E. now apply stopSession_releases.
  - unfold Session.startSession. apply Status_eqb_neq in H. now rewrite H.
  - unfold Session.stopSession. now rewrite H.
Qed.

Lemma toggle_starts_when_idle_and_stops_otherwise_witness :
  let running :=
    Session.run [Session.toggle; Session.opened true] Session.init in
  Session.toggleSession Session.init
  = Session.mk Session.connecting EmptyString false false
      (Some Session.CONNECTING) true false false None false false false
      [Session.WebSocket_new]
  /\ Session.toggleSession running
     = Session.mk Session.idle EmptyString false false None true
         false false None false false false
         (Session.trace running
          ++ [Session.socket_close; Session.track_stop;
              Session.userSourceNode_disconnect;
              Session.userWorkletNode_disconnect])
  /\ Session.startSession running = running
  /\ Session.stopSession Session.init = Session.init.
Proof.
  intros running.
  pose proof (toggle_starts_when_idle_and_stops_otherwise Session.init)
    as (Start & _ & _ & Stop).
  pose proof (toggle_starts_when_idle_and_stops_otherwise running)
    as (_ & Stops & Start' & _).
  assert (Session.status running <> Session.idle) as N by discriminate.
  split; [exact (proj2 (Start eq_refl))|].
  split; [exact (proj1 (proj2 (Stops N)))|].
  split; [exact (Start' N) | exact (Stop eq_refl)].
Defined.

(** The user's stop, an [error] message and a transport error are the
    teardown routine. *)
Lemma teardown_triggers (s : Session.t) (text : string) :
  Session.status s <> Session.idle ->
  Session.step Session.toggle s = Session.stopSession s
  /\ Session.step (Session.message (Session.error text)) s = Session.stopSession s
  /\ Session.step Session.failed s = Session.stopSession s.
Proof.
  intros H. apply Status_eqb_neq in H. cbn. unfold Session.toggleSession.
  now rewrite H.
Qed.

(** The [close] handler sets [status] and nothing else: no effect, no
    handle dropped, no flag reset; and it leaves the session in [idle],
    where the teardown routine returns at once. *)
Lemma close_leaves_resources (s : Session.t) :
  let s' := Session.step Session.closed s in
  Session.status s' = Session.idle
  /\ Session.trace s' = Session.trace s
  /\ Session.mediaStream s' = Session.mediaStream s
  /\ Session.userSourceNode s' = Session.userSourceNode s
  /\ Session.userWorkletNode s' = Session.userWorkletNode s
  /\ Session.ttsWorkletNode s' = Session.ttsWorkletNode s
  /\ Session.sttLocked s' = Session.sttLocked s
  /\ Session.ttsPlaying s' = Session.ttsPlaying s
  /\ Session.stopSession s' = s'.
Proof.
  destruct s as [st fa ua aa so ac usn uwn ms twn lk pl tr].
  destruct so; cbn; repeat split.
Qed.

(** C7.  A session that is listening, microphone acquired.  The user's stop,
    an [error] message and a transport error each run the teardown: the
    connection is closed, the track stopped and the two capture nodes
    disconnected, once each.  The [close] of the connection only sets
    [status]: nothing is released, the stream and the nodes stay held, and
    since the session is now [idle] no later teardown releases them. *)
Theorem close_skips_teardown :
  let s := Session.run [Session.toggle; Session.opened true] Session.init in
  let torn := Session.stopSession s in
  let s' := Session.step Session.closed s in
  Session.status s = Session.listening
  /\ Session.step Session.toggle s = torn
  /\ Session.step (Session.message (Session.error "")) s = torn
  /\ Session.step Session.failed s = torn
  /\ Session.trace torn
     = Session.trace s
       ++ [Session.socket_close; Session.track_stop;
           Session.userSourceNode_disconnect;
           Session.userWorkletNode_disconnect]
  /\ Session.mediaStream torn = None
  /\ Session.status s' = Session.idle
  /\ Session.trace s' = Session.trace s
  /\ Session.mediaStream s' = Some (Session.mkStream true true)
  /\ Session.userSourceNode s' = true
  /\ Session.userWorkletNode s' = true
  /\ Session.stopSession s' = s'
  /\ Session.trace (Session.run [Session.toggle; Session.toggle] s')
     = [Session.WebSocket_new; Session.WebSocket_new; Session.socket_close;
        Session.track_stop; Session.userSourceNode_disconnect;
        Session.userWorkletNode_disconnect].
Proof. cbv zeta. repeat apply conj; vm_compute; reflexivity. Qed.

(** *** The capture lock *)

Ltac session_cases :=
  cbv beta iota zeta delta -[app Wire.decode_chunk Wire.encode_frame] in *;
  try reflexivity; try discriminate; try congruence.

Lemma lock_invariant_stopSession (s : Session.t) :
  (Session.status s = Session.idle -> Session.lock_invariant s = true) ->
  Session.lock_invariant (Session.stopSession s) = true.
Proof.
  intros H. destruct (Session.Status_eqb (Session.status s) Session.idle) eqn:E.
  - unfold Session.stopSession. rewrite E. apply H. now apply Status_eqb_eq.
  - apply Status_eqb_neq in E. rewrite (stopSession_releases s E). reflexivity.
Qed.

Lemma lock_invariant_startListening (granted : bool) (s : Session.t) :
  Session.lock_invariant s = true ->
  Session.lock_invariant (Session.startListening granted s) = true.
Proof.
  intros H. unfold Session.startListening.
  destruct (Session.sttLocked s || negb (Session.socket_is_open s)) eqn:G;
    [exact H|].
  apply orb_false_iff in G. destruct G as [L _].
  assert (Session.ttsPlaying s = false) as P.
  { unfold Session.lock_invariant in H. apply andb_true_iff in H.
    destruct H as [_ H]. rewrite L in H.
    destruct (Session.ttsPlaying s); [discriminate | reflexivity]. }
  destruct s as [st fa ua aa so ac usn uwn ms twn lk pl tr].
  cbn [Session.sttLocked Session.ttsPlaying] in L, P. subst lk pl. clear H.
  destruct ms as [[[|] en]|], granted;
    try (apply lock_invariant_stopSession; intros I; discriminate I);
    reflexivity.
Qed.

Lemma lock_invariant_message (m : Session.Message) (s : Session.t) :
  Session.orderly (Session.message m) = true ->
  Session.lock_invariant s = true ->
  Session.lock_invariant (Session.socket_onmessage m s) = true.
Proof.
  intros O H. destruct m as [|d|d| |text|]; cbn [Session.socket_onmessage].
  - destruct s as [st fa ua aa so ac usn uwn ms twn lk pl tr].
    destruct ms, pl; reflexivity.
  - destruct s as [st fa ua aa so ac usn uwn ms twn lk pl tr].
    destruct twn, pl; reflexivity.
  - cbn [Session.orderly] in O.
    destruct s as [st fa ua aa so ac usn uwn ms twn lk pl tr].
    unfold Session.pushTtsChunkBase64.
    destruct (Wire.decode_chunk d) as [i16|]; [clear O | discriminate O].
    destruct st, lk, pl, twn, ms; session_cases.
  - destruct s as [st fa ua aa so ac usn uwn ms twn lk pl tr].
    destruct twn; exact H.
  - apply lock_invariant_stopSession. intros _. exact H.
  - exact H.
Qed.

(** Every event but the [close] of the connection keeps the invariant. *)
Lemma lock_invariant_step (e : Session.Event) (s : Session.t) :
  Session.orderly e = true ->
  Session.lock_invariant s = true ->
  Session.lock_invariant (Session.step e s) = true.
Proof.
  intros O H. destruct e as [|g|m| | |frame|g]; cbn [Session.step].
  - unfold Session.toggleSession.
    destruct (Session.Status_eqb (Session.status s) Session.idle) eqn:E.
    + unfold Session.startSession. rewrite E. cbn [negb].
      destruct s as [st fa ua aa so ac usn uwn ms twn lk pl tr].
      destruct st, lk, pl; session_cases.
    + apply lock_invariant_stopSession. intros _. exact H.
  - apply lock_invariant_startListening.
    destruct s as [st fa ua aa so ac usn uwn ms twn lk pl tr].
    destruct so; exact H.
  - now apply lock_invariant_message.
  - apply lock_invariant_stopSession. intros _. exact H.
  - discriminate O.
  - unfold Session.userWorkletNode_onmessage.
    destruct (Session.sttLocked s || negb (Session.socket_is_open s)); [exact H|].
    destruct (Wire.encode_frame frame); exact H.
  - unfold Session.ttsWorkletNode_onmessage.
    destruct (Session.socket_is_open _) eqn:Open.
    + destruct s as [st fa ua aa so ac usn uwn ms twn lk pl tr].
      destruct so as [[| | |]|]; try discriminate Open.
      destruct ms as [[[|] en]|], g;
        try (apply lock_invariant_stopSession; intros I; discriminate I);
        reflexivity.
    + apply lock_invariant_stopSession. intros I.
      destruct s as [st fa ua aa so ac usn uwn ms twn lk pl tr].
      cbn in I. subst st. reflexivity.
Qed.

(** Over the listed steps (and the opening of the connection, and captured
    frames) the invariant holds in every state. *)
Lemma lock_invariant_run (es : list Session.Event) (s : Session.t) :
  forallb Session.orderly es = true ->
  Session.lock_invariant s = true ->
  Session.lock_invariant (Session.run es s) = true.
Proof.
  revert s. induction es as [|e es IH]; intros s O H; [exact H|].
  cbn [forallb] in O. apply andb_true_iff in O. destruct O as [Oe Or].
  cbn [Session.run fold_left]. apply IH; [exact Or|].
  now apply lock_invariant_step.
Qed.

Lemma capture_lock_consistent_without_close (es : list Session.Event) :
  forallb Session.orderly es = true ->
  Session.lock_consistent (Session.run es Session.init) = true.
Proof.
  intros O.
  pose proof (lock_invariant_run es Session.init O eq_refl) as H.
  unfold Session.lock_invariant in H. now apply andb_true_iff in H.
Qed.

(** Whenever the lock is set, the [close] of the connection leaves it set
    in [idle]. *)
Lemma close_keeps_lock (s : Session.t) :
  Session.sttLocked s = true ->
  Session.status (Session.step Session.closed s) = Session.idle
  /\ Session.sttLocked (Session.step Session.closed s) = true
  /\ Session.lock_consistent (Session.step Session.closed s) = false.
Proof.
  destruct s as [st fa ua aa so ac usn uwn ms twn lk pl tr].
  cbn [Session.sttLocked]. intros ->. destruct so; repeat split.
Qed.

Lemma reachable_run (es : list Session.Event) (s : Session.t) :
  Session.reachable s -> Session.reachable (Session.run es s).
Proof.
  revert s. induction es as [|e es IH]; intros s R; [exact R|].
  cbn [Session.run fold_left]. apply IH. now constructor.
Qed.

(** C1.  Start, connection opened, [stt_end] received: the session is
    [processing] with the capture lock set.  The connection then closes: the
    [close] handler sets [status] to [idle] and leaves the lock set, a
    reachable state in which the invariant fails.  From there a new start
    reaches [connecting] and stays there, [startListening] returning at the
    set lock.  Under every other event the invariant is kept
    ([lock_invariant_step]). *)
Theorem close_breaks_capture_lock_invariant :
  let before :=
    Session.run [Session.toggle; Session.opened true;
                 Session.message Session.stt_end] Session.init in
  let s := Session.step Session.closed before in
  Session.status before = Session.processing
  /\ Session.sttLocked before = true
  /\ Session.lock_consistent before = true
  /\ Session.reachable s
  /\ Session.status s = Session.idle
  /\ Session.sttLocked s = true
  /\ Session.lock_consistent s = false
  /\ Session.status (Session.run [Session.toggle; Session.opened true] s)
     = Session.connecting.
Proof.
  cbv zeta. repeat apply conj; try (vm_compute; reflexivity).
  apply Session.reachable_step.
  apply reachable_run. constructor.
Qed.

(* ================================================================== *)
(** * Further properties of the code *)

(** ** The teardown routine and its callers *)

Lemma releases_NoDup (s : Session.t) : NoDup (Session.releases s).
Proof.
  unfold Session.releases.
  destruct (Session.socket s), (Session.mediaStream s),
    (Session.userSourceNode s), (Session.userWorkletNode s),
    (Session.ttsWorkletNode s); cbn [app];
    repeat (constructor; [cbn; intuition discriminate|]); constructor.
Qed.

(** X1.  Outside [idle], [stopSession] closes the connection, stops the
    track and disconnects the three nodes, each only if it is held and each
    once, in that order; it clears every handle, both flags and both taps
    and ends in [idle].  It keeps [finalAnswer] and the audio context.
    Calling it again changes nothing. *)
Theorem stopSession_releases_what_is_held_once (s : Session.t) :
  Session.status s <> Session.idle ->
  Session.stopSession s
  = Session.mk Session.idle (Session.finalAnswer s) false false None
               (Session.audioContext s) false false None false false false
               (Session.trace s ++ Session.releases s)
  /\ NoDup (Session.releases s)
  /\ Session.releases (Session.stopSession s) = []
  /\ Session.stopSession (Session.stopSession s) = Session.stopSession s.
Proof.
  intros H. split; [now apply stopSession_releases|].
  split; [apply releases_NoDup|].
  split; [now rewrite (stopSession_releases s H) | apply stopSession_idempotent].
Qed.

Lemma stopSession_releases_what_is_held_once_witness :
  let s :=
    Session.run [Session.toggle; Session.opened true;
                 Session.message (Session.tts_chunk "AAABAA==")] Session.init in
  Session.trace (Session.stopSession s)
  = Session.trace s
    ++ [Session.socket_close; Session.track_stop;
        Session.userSourceNode_disconnect; Session.userWorkletNode_disconnect;
        Session.ttsWorkletNode_disconnect]
  /\ Session.status (Session.stopSession s) = Session.idle.
Proof.
  intros s.
  assert (Session.status s <> Session.idle) as N by (vm_compute; discriminate).
  destruct (stopSession_releases_what_is_held_once s N) as (E & _).
  rewrite E. split; reflexivity.
Defined.

(** X2.  The [onUnmounted] hook, from any status but [idle]: everything the
    session holds is released as by [stopSession], and the audio context,
    when there is one, is closed and dropped.  Unmounting again releases
    nothing and closes nothing. *)
Theorem onUnmounted_releases_and_closes (s : Session.t) :
  Session.status s <> Session.idle ->
  let (s', closed) := Lifecycle.onUnmounted s in
  closed = Session.audioContext s
  /\ s' = Session.mk Session.idle (Session.finalAnswer s) false false None
                     false false false None false false false
                     (Session.trace s ++ Session.releases s)
  /\ Lifecycle.onUnmounted s' = (s', false).
Proof.
  intros H. unfold Lifecycle.onUnmounted.
  rewrite (stopSession_releases s H). cbn [Session.audioContext].
  destruct (Session.audioContext s); repeat split.
Qed.

Lemma onUnmounted_releases_and_closes_witness :
  let s := Session.run [Session.toggle; Session.opened true] Session.init in
  fst (Lifecycle.onUnmounted s)
  = Session.mk Session.idle "" false false None false false false None
               false false false
               [Session.WebSocket_new; Session.socket_close; Session.track_stop;
                Session.userSourceNode_disconnect;
                Session.userWorkletNode_disconnect]
  /\ snd (Lifecycle.onUnmounted s) = true.
Proof.
  intros s.
  assert (Session.status s <> Session.idle) as N by (vm_compute; discriminate).
  pose proof (onUnmounted_releases_and_closes s N) as H.
  destruct (Lifecycle.onUnmounted s) as [s' closed].
  destruct H as (C & E & _). rewrite C, E. split; reflexivity.
Defined.

(** ** The capture lock *)

(** X3.  In every state reached from the initial one through events other
    than the close of the connection (speech chunks carrying a payload that
    [atob] accepts), the capture lock is set when [status] is [processing] or
    [speaking] and unset when it is [idle] or [listening]. *)
Theorem capture_lock_follows_status_without_close (es : list Session.Event) :
  forallb Session.orderly es = true ->
  let s := Session.run es Session.init in
  ((Session.status s = Session.processing
    \/ Session.status s = Session.speaking) -> Session.sttLocked s = true)
  /\ ((Session.status s = Session.idle
       \/ Session.status s = Session.listening) -> Session.sttLocked s = false).
Proof.
  intros O s. pose proof (capture_lock_consistent_without_close es O) as H.
  fold s in H. unfold Session.lock_consistent in H.
  split; intros [E|E]; rewrite E in H;
    try exact H; now destruct (Session.sttLocked s).
Qed.

Lemma capture_lock_follows_status_without_close_witness :
  let s :=
    Session.run [Session.toggle; Session.opened true;
                 Session.message Session.stt_end;
                 Session.message (Session.tts_chunk "AAABAA==")]
                Session.init in
  Session.status s = Session.speaking /\ Session.sttLocked s = true.
Proof.
  intros s. split; [reflexivity|].
  apply (proj1 (capture_lock_follows_status_without_close
                  [Session.toggle; Session.opened true;
                   Session.message Session.stt_end;
                   Session.message (Session.tts_chunk "AAABAA==")]
                  eq_refl)).
  right. reflexivity.
Defined.

(** X4.  In such a state, while [status] is [processing] or [speaking],
    every frame the capture worklet delivers is dropped: the port handler
    returns the session unchanged, so nothing of the assistant's own voice
    is sent. *)
Theorem no_frame_sent_while_assistant_busy
        (es : list Session.Event) (frame : list Z) :
  forallb Session.orderly es = true ->
  let s := Session.run es Session.init in
  Session.status s = Session.processing \/ Session.status s = Session.speaking ->
  Session.step (Session.captured frame) s = s.
Proof.
  intros O s B. pose proof (capture_lock_consistent_without_close es O) as H.
  fold s in H. unfold Session.lock_consistent in H.
  cbn [Session.step]. unfold Session.userWorkletNode_onmessage.
  destruct B as [E|E]; rewrite E in H; now rewrite H.
Qed.

Lemma no_frame_sent_while_assistant_busy_witness :
  let es := [Session.toggle; Session.opened true;
             Session.message Session.stt_end] in
  Session.step (Session.captured [1; 2; 3]) (Session.run es Session.init)
  = Session.run es Session.init.
Proof.
  intros es.
  apply (no_frame_sent_while_assistant_busy es [1; 2; 3] eq_refl).
  left. reflexivity.
Defined.

(** ** Starting and resuming capture *)

(** X5.  What the end-of-playback notification leaves behind, whatever the
    session was doing: the capture lock and the playback flag are cleared,
    and the session is either [listening] (only if the connection is open,
    and then with an active stream whose tracks are enabled) or [idle]. *)
Theorem playback_end_resumes_or_stops (granted : bool) (s : Session.t) :
  let s' := Session.ttsWorkletNode_onmessage granted s in
  Session.sttLocked s' = false
  /\ Session.ttsPlaying s' = false
  /\ (Session.status s' = Session.listening \/ Session.status s' = Session.idle)
  /\ (Session.status s' = Session.listening ->
      Session.socket s = Some Session.OPEN
      /\ Session.mediaStream s' = Some (Session.mkStream true true)).
Proof.
  destruct s as [st fa ua aa so ac usn uwn ms twn lk pl tr].
  destruct so as [[| | |]|], st, ms as [[[|] en]|], granted,
    usn, uwn, twn;
    cbv beta iota zeta delta -[app];
    (split; [reflexivity|]; split; [reflexivity|];
     split; [auto|]; intros E; try discriminate E; split; reflexivity).
Qed.

(** X6.  [startListening] when the lock is unset and the connection open but
    no active stream is held and the microphone is refused: the user is
    alerted and the session is torn down to [idle], the connection closed
    and every handle released. *)
Theorem startListening_refused_tears_down (s : Session.t) :
  Session.sttLocked s = false ->
  Session.socket s = Some Session.OPEN ->
  (forall m, Session.mediaStream s = Some m -> Session.active m = false) ->
  Session.startListening false s
  = Session.mk Session.idle "" false false None (Session.audioContext s)
               false false None false false false
               (Session.trace s ++ Session.alert :: Session.releases s).
Proof.
  intros L O M. unfold Session.startListening, Session.socket_is_open.
  rewrite L, O. cbn [orb negb].
  destruct s as [st fa ua aa so ac usn uwn ms twn lk pl tr].
  cbn [Session.socket Session.mediaStream] in O, M. subst so.
  assert (match ms with Some m => Session.active m | None => false end = false)
    as R by (destruct ms as [m|]; [now apply M | reflexivity]).
  cbn [Session.mediaStream Session.set_finalAnswer Session.set_status
       Session.status Session.finalAnswer Session.userAnalyser
       Session.aiAnalyser Session.socket Session.audioContext
       Session.userSourceNode Session.userWorkletNode Session.ttsWorkletNode
       Session.sttLocked Session.ttsPlaying Session.trace].
  rewrite R.
  rewrite stopSession_releases by (cbn; discriminate).
  unfold Session.releases. cbn. now rewrite <- app_assoc.
Qed.

Lemma startListening_refused_tears_down_witness :
  let s := Session.step Session.toggle Session.init in
  Session.step (Session.opened false) s
  = Session.mk Session.idle "" false false None true false false None
               false false false
               [Session.WebSocket_new; Session.alert; Session.socket_close].
Proof.
  intros s.
  change (Session.step (Session.opened false) s)
    with (Session.startListening false (Session.set_readyState Session.OPEN s)).
  rewrite (startListening_refused_tears_down (Session.set_readyState Session.OPEN s)
             eq_refl eq_refl ltac:(intros m E; discriminate E)).
  reflexivity.
Defined.

(** X7.  [startListening] when the lock is unset, the connection open and an
    active stream already held: the stream is kept and its tracks enabled,
    the status becomes [listening] and the answer text is cleared; nothing
    is acquired and no effect happens, whatever the permission would be.
    Muting first makes no difference. *)
Theorem startListening_reuses_held_stream
        (granted : bool) (en : bool) (s : Session.t) :
  Session.sttLocked s = false ->
  Session.socket s = Some Session.OPEN ->
  Session.mediaStream s = Some (Session.mkStream true en) ->
  Session.startListening granted s
  = Session.mk Session.listening "" (Session.userAnalyser s)
               (Session.aiAnalyser s) (Session.socket s)
               (Session.audioContext s) (Session.userSourceNode s)
               (Session.userWorkletNode s)
               (Some (Session.mkStream true true))
               (Session.ttsWorkletNode s) false (Session.ttsPlaying s)
               (Session.trace s)
  /\ Session.startListening granted (Session.stopListening s)
     = Session.startListening granted s.
Proof.
  intros L O M.
  destruct s as [st fa ua aa so ac usn uwn ms twn lk pl tr].
  cbn [Session.sttLocked Session.socket Session.mediaStream] in L, O, M.
  subst lk so ms. split; reflexivity.
Qed.

Lemma startListening_reuses_held_stream_witness :
  let muted :=
    Session.run [Session.toggle; Session.opened true;
                 Session.message Session.stt_end;
                 Session.message Session.tts_end] Session.init in
  Session.mediaStream muted = Some (Session.mkStream true false)
  /\ Session.mediaStream (Session.step (Session.playback_ended false) muted)
     = Some (Session.mkStream true true)
  /\ Session.trace (Session.step (Session.playback_ended false) muted)
     = Session.trace muted.
Proof.
  intros muted. split; [reflexivity|].
  change (Session.step (Session.playback_ended false) muted)
    with (Session.startListening false
            (Session.set_sttLocked false (Session.set_ttsPlaying false muted))).
  destruct (startListening_reuses_held_stream false false
              (Session.set_sttLocked false (Session.set_ttsPlaying false muted))
              eq_refl eq_refl eq_refl) as [E _].
  rewrite E. split; reflexivity.
Defined.

(** X8.  A speech chunk whose payload [atob] rejects: nothing is posted to
    the playback worklet and no effect happens, [status] and the playback
    flag stay as they were; but the capture lock is set, the tracks of a
    held stream are disabled if the lock was unset, and the playback
    worklet is created. *)
Theorem undecodable_chunk_locks_without_playing (data : string) (s : Session.t) :
  Wire.decode_chunk data = None ->
  let s' := Session.socket_onmessage (Session.tts_chunk data) s in
  Session.trace s' = Session.trace s
  /\ Session.status s' = Session.status s
  /\ Session.ttsPlaying s' = Session.ttsPlaying s
  /\ Session.sttLocked s' = true
  /\ Session.ttsWorkletNode s' = true
  /\ (Session.sttLocked s = false ->
      forall m, Session.mediaStream s = Some m ->
                Session.mediaStream s'
                = Some (Session.mkStream (Session.active m) false)).
Proof.
  intros D. cbn [Session.socket_onmessage]. unfold Session.pushTtsChunkBase64.
  rewrite D.
  destruct s as [st fa ua aa so ac usn uwn ms twn lk pl tr].
  destruct lk, twn, ms as [m|]; cbn; repeat split;
    try (intros E; discriminate E); try (intros _ m' E; discriminate E);
    intros _ m' E; now inversion E.
Qed.

Lemma undecodable_chunk_locks_without_playing_witness :
  let s := Session.run [Session.toggle; Session.opened true] Session.init in
  let s' := Session.step (Session.message (Session.tts_chunk "?")) s in
  Session.status s' = Session.listening
  /\ Session.sttLocked s' = true
  /\ Session.trace s' = Session.trace s.
Proof.
  intros s s'.
  destruct (undecodable_chunk_locks_without_playing "?" s eq_refl)
    as (T & St & _ & L & _).
  subst s'.
  change (Session.step (Session.message (Session.tts_chunk "?")) s)
    with (Session.socket_onmessage (Session.tts_chunk "?") s).
  rewrite T, St, L. repeat split.
Defined.

(** ** The handles of a session *)

Lemma handles_consistent_step (e : Session.Event) (s : Session.t) :
  Lifecycle.handles_consistent s = true ->
  Lifecycle.handles_consistent (Session.step e s) = true.
Proof.
  intros H. destruct s as [st fa ua aa so ac usn uwn ms twn lk pl tr].
  destruct ua, aa, usn, uwn, twn, pl, ms as [[a en]|], st;
    cbv in H; try discriminate H; clear H;
    (destruct e as [|g|m| | |frame|g]; [| | destruct m as [|d|d| |text|] | | | |]);
    destruct so as [[| | |]|], lk;
    try destruct g; try destruct a;
    cbn [Session.step Session.socket_onmessage];
    unfold Session.pushTtsChunkBase64, Session.userWorkletNode_onmessage;
    try destruct (Wire.decode_chunk d);
    try destruct (Wire.encode_frame frame);
    reflexivity.
Qed.

(** X9.  In every reachable state, the close of the connection included,
    the handles that are created together are held together: the playback
    tap exists exactly when the playback worklet does, and the capture tap,
    the source node and the capture worklet exist exactly when a stream is
    held.  While [status] is [speaking] the playback tap exists, and while
    it is [listening] a stream is held and the capture tap exists. *)
Theorem handles_are_held_together (s : Session.t) :
  Session.reachable s ->
  Session.aiAnalyser s = Session.ttsWorkletNode s
  /\ Session.userAnalyser s = Lifecycle.holds_stream s
  /\ Session.userSourceNode s = Lifecycle.holds_stream s
  /\ Session.userWorkletNode s = Lifecycle.holds_stream s
  /\ (Session.status s = Session.speaking -> Session.aiAnalyser s = true)
  /\ (Session.status s = Session.listening ->
      Session.userAnalyser s = true /\ Session.mediaStream s <> None).
Proof.
  intros R.
  assert (Lifecycle.handles_consistent s = true) as H.
  { induction R as [|e s R IH]; [reflexivity|].
    now apply handles_consistent_step. }
  unfold Lifecycle.handles_consistent in H.
  rewrite !andb_true_iff in H.
  destruct H as [[[[[A U] Sn] W] _] St].
  apply eqb_prop in A, U, Sn, W.
  do 4 (split; [assumption|]). split.
  - intros E. rewrite E in St. now rewrite A.
  - intros E. rewrite E in St. split; [now rewrite U|].
    unfold Lifecycle.holds_stream in St.
    destruct (Session.mediaStream s); [discriminate | discriminate St].
Qed.

Lemma handles_are_held_together_witness :
  let s :=
    Session.run [Session.toggle; Session.opened true;
                 Session.message (Session.tts_chunk "AAABAA=="); Session.closed;
                 Session.toggle] Session.init in
  Session.aiAnalyser s = Session.ttsWorkletNode s
  /\ Session.userAnalyser s = Lifecycle.holds_stream s.
Proof.
  intros s.
  assert (Session.reachable s) as R by (apply reachable_run; constructor).
  destruct (handles_are_held_together s R) as (A & U & _).
  split; assumption.
Defined.

(** ** A whole turn *)

Lemma Session_run_app (es1 es2 : list Session.Event) (s : Session.t) :
  Session.run (es1 ++ es2) s = Session.run es2 (Session.run es1 s).
Proof. apply fold_left_app. Qed.

(** Once the lock is set and playback has begun, further chunks are only
    handed to the playback worklet, in order. *)
Lemma run_chunks_while_speaking
      (chunks : list string) (samples : list (list Z)) (s : Session.t) :
  Forall2 (fun data i16 => Wire.decode_chunk data = Some i16) chunks samples ->
  Session.sttLocked s = true ->
  Session.ttsWorkletNode s = true ->
  Session.ttsPlaying s = true ->
  Session.run (map (fun data => Session.message (Session.tts_chunk data)) chunks) s
  = Session.mk (Session.status s) (Session.finalAnswer s)
               (Session.userAnalyser s) (Session.aiAnalyser s)
               (Session.socket s) (Session.audioContext s)
               (Session.userSourceNode s) (Session.userWorkletNode s)
               (Session.mediaStream s) true true true
               (Session.trace s
                ++ map (fun i16 =>
                          Session.ttsWorkletNode_postMessage (PCMPlayer.chunk i16))
                       samples).
Proof.
  intros F. revert s. induction F as [|data i16 chunks samples D _ IH];
    intros s L N P.
  - destruct s as [st fa ua aa so ac usn uwn ms twn lk pl tr].
    cbn in L, N, P. subst. cbn. now rewrite app_nil_r.
  - cbn [map Session.run fold_left].
    change (fold_left (fun s e => Session.step e s) ?l ?x)
      with (Session.run l x).
    rewrite IH.
    + destruct s as [st fa ua aa so ac usn uwn ms twn lk pl tr].
      cbn in L, N, P. subst.
      cbn [Session.step Session.socket_onmessage].
      unfold Session.pushTtsChunkBase64. rewrite D.
      cbn. now rewrite <- app_assoc.
    + destruct s as [st fa ua aa so ac usn uwn ms twn lk pl tr].
      cbn in L, N, P. subst.
      cbn [Session.step Session.socket_onmessage].
      unfold Session.pushTtsChunkBase64. now rewrite D.
    + destruct s as [st fa ua aa so ac usn uwn ms twn lk pl tr].
      cbn in L, N, P. subst.
      cbn [Session.step Session.socket_onmessage].
      unfold Session.pushTtsChunkBase64. now rewrite D.
    + destruct s as [st fa ua aa so ac usn uwn ms twn lk pl tr].
      cbn in L, N, P. subst.
      cbn [Session.step Session.socket_onmessage].
      unfold Session.pushTtsChunkBase64. now rewrite D.
Qed.

(** X10.  One turn on an open connection with an active stream held
    (the playback tap existing exactly when the playback worklet does), each
    handler run to completion before the next event is handled, the ones
    that await the playback worklet and the stream included: [stt_end], one
    or more speech chunks with payloads that [atob] accepts, [tts_end], then
    the end-of-playback notification.  The session is back in
    [listening] with the lock and the playback flag cleared and the tracks
    enabled again; the playback worklet and its tap exist; and the only
    effects of the turn are the decoded chunks posted to the playback
    worklet in their order of arrival, followed by the end marker.  No
    frame is sent and nothing is released. *)
Theorem turn_returns_to_listening
        (chunks : list string) (samples : list (list Z))
        (granted en : bool) (s : Session.t) :
  chunks <> [] ->
  Forall2 (fun data i16 => Wire.decode_chunk data = Some i16) chunks samples ->
  Session.socket s = Some Session.OPEN ->
  Session.mediaStream s = Some (Session.mkStream true en) ->
  Session.aiAnalyser s = Session.ttsWorkletNode s ->
  Session.run (Lifecycle.turn chunks granted) s
  = Session.mk Session.listening "" (Session.userAnalyser s) true
               (Some Session.OPEN) (Session.audioContext s)
               (Session.userSourceNode s) (Session.userWorkletNode s)
               (Some (Session.mkStream true true)) true false false
               (Session.trace s
                ++ map (fun i16 =>
                          Session.ttsWorkletNode_postMessage (PCMPlayer.chunk i16))
                       samples
                ++ [Session.ttsWorkletNode_postMessage PCMPlayer.end_]).
Proof.
  intros NE F O M A. unfold Lifecycle.turn.
  destruct F as [|data i16 chunks samples D F]; [now elim NE|]. clear NE.
  cbn [map app].
  change (Session.run (?a :: ?b :: ?l) s)
    with (Session.run l (Session.step b (Session.step a s))).
  rewrite Session_run_app.
  destruct s as [st fa ua aa so ac usn uwn ms twn lk pl tr].
  cbn [Session.socket Session.mediaStream Session.aiAnalyser
       Session.ttsWorkletNode] in O, M, A. subst so ms aa.
  rewrite (run_chunks_while_speaking chunks samples _ F).
  - cbn [Session.step Session.socket_onmessage].
    unfold Session.pushTtsChunkBase64. 
    destruct lk, twn, pl; cbn; rewrite D;
      cbv beta iota zeta delta -[app map];
      rewrite <- ?app_assoc; reflexivity.
  - cbn [Session.step Session.socket_onmessage].
    unfold Session.pushTtsChunkBase64.
    destruct lk, twn, pl; cbn; rewrite D; reflexivity.
  - cbn [Session.step Session.socket_onmessage].
    unfold Session.pushTtsChunkBase64.
    destruct lk, twn, pl; cbn; rewrite D; reflexivity.
  - cbn [Session.step Session.socket_onmessage].
    unfold Session.pushTtsChunkBase64.
    destruct lk, twn, pl; cbn; rewrite D; reflexivity.
Qed.

Lemma turn_returns_to_listening_witness :
  let s := Session.run [Session.toggle; Session.opened true] Session.init in
  let s' := Session.run (Lifecycle.turn ["AAABAA=="; "//8="]%string false) s in
  Session.status s' = Session.listening
  /\ Session.sttLocked s' = false
  /\ Session.trace s'
     = Session.trace s
       ++ [Session.ttsWorkletNode_postMessage (PCMPlayer.chunk [0; 1]);
           Session.ttsWorkletNode_postMessage (PCMPlayer.chunk [-1]);
           Session.ttsWorkletNode_postMessage PCMPlayer.end_].
Proof.
  intros s s'. subst s'.
  rewrite (turn_returns_to_listening ["AAABAA=="; "//8="]%string [[0; 1]; [-1]]
             false true s ltac:(discriminate)
             ltac:(repeat constructor) eq_refl eq_refl eq_refl).
  repeat split.
Defined.

(** ** Decoding chunks and encoding frames *)

Lemma list_ind2 {A : Type} (P : list A -> Prop) :
  P [] -> (forall a, P [a]) ->
  (forall a b rest, P rest -> P (a :: b :: rest)) ->
  forall l, P l.
Proof.
  intros H0 H1 H2.
  assert (forall l, P l /\ forall a, P (a :: l)) as K.
  { induction l as [|x l [I0 I1]]; [auto|].
    split; [apply I1|]. intros a. apply H2, I0. }
  intros l. apply K.
Qed.

(** X11.  The decoding loop of [pushTtsChunkBase64] on a binary string of
    any length: it yields one sample for each complete pair of bytes, every
    sample a signed 16-bit value, and an unpaired last byte is ignored. *)
Theorem decode_pairs_takes_whole_pairs (bin : list Z) (last : Z) :
  List.length (Wire.decode_pairs bin) = (List.length bin / 2)%nat
  /\ Forall (fun v => -32768 <= v <= 32767) (Wire.decode_pairs bin)
  /\ (Nat.even (List.length bin) = true ->
      Wire.decode_pairs (bin ++ [last]) = Wire.decode_pairs bin).
Proof.
  induction bin as [|a|lo hi rest (L & R & O)] using list_ind2.
  - repeat split; constructor.
  - repeat split; [constructor | discriminate].
  - cbn [Wire.decode_pairs List.length app]. split; [|split].
    + rewrite L. change (S (S (List.length rest))) with (2 + List.length rest)%nat.
      replace (2 + List.length rest)%nat with (List.length rest + 1 * 2)%nat by lia.
      rewrite Nat.div_add by lia. lia.
    + constructor; [|exact R].
      pose proof (ToInt16_range (Z.lor (Z.shiftl hi 8) lo)). lia.
    + intros E. cbn [Nat.even] in E. now rewrite (O E).
Qed.

Lemma decode_pairs_takes_whole_pairs_witness :
  Wire.decode_pairs ([255; 255; 1; 0] ++ [7]) = Wire.decode_pairs [255; 255; 1; 0]
  /\ List.length (Wire.decode_pairs [255; 255; 1; 0; 7]) = 2%nat.
Proof.
  destruct (decode_pairs_takes_whole_pairs [255; 255; 1; 0] 7) as (_ & _ & O).
  destruct (decode_pairs_takes_whole_pairs [255; 255; 1; 0; 7] 0) as (L & _ & _).
  split; [exact (O eq_refl) | exact L].
Defined.

Lemma word_bytes_back (lo hi : Z) :
  Base64.is_byte lo = true -> Base64.is_byte hi = true ->
  Wire.Int16_bytes (JS.ToInt16 (Z.lor (Z.shiftl hi 8) lo)) = [lo; hi].
Proof.
  intros Hl Hh. destruct (word_of_bytes hi lo Hh Hl) as (A & B & C).
  apply is_byte_range in Hl, Hh.
  unfold Wire.Int16_bytes. cbv zeta. rewrite C.
  assert (JS.ToInt16 (hi * 256 + lo) mod 65536 = hi * 256 + lo) as E.
  { unfold JS.ToInt16. cbv zeta.
    rewrite (Z.mod_small (hi * 256 + lo)) by lia.
    destruct (Z.leb_spec 32768 (hi * 256 + lo)).
    - replace (hi * 256 + lo - 65536) with (hi * 256 + lo + (-1) * 65536) by lia.
      rewrite Z.mod_add by lia. apply Z.mod_small. lia.
    - apply Z.mod_small. lia. }
  now rewrite E, A, B.
Qed.

(** X12.  The other direction of the wire round trip: a binary string of
    an even number of bytes, decoded to 16-bit samples as
    [pushTtsChunkBase64] does, has exactly those bytes as the little-endian
    buffer of the samples, so decoding loses nothing. *)
Theorem decoded_samples_keep_the_bytes (bin : list Z) :
  forallb Base64.is_byte bin = true ->
  Nat.even (List.length bin) = true ->
  Wire.Uint8Array_of_Int16Array (Wire.decode_pairs bin) = bin.
Proof.
  induction bin as [|a|lo hi rest IH] using list_ind2; intros B E.
  - reflexivity.
  - discriminate E.
  - cbn [forallb] in B. rewrite !andb_true_iff in B. destruct B as (Bl & Bh & Br).
    cbn [List.length Nat.even] in E.
    cbn [Wire.decode_pairs]. unfold Wire.Uint8Array_of_Int16Array in *.
    cbn [flat_map]. rewrite (word_bytes_back lo hi Bl Bh), (IH Br E).
    reflexivity.
Qed.

Lemma decoded_samples_keep_the_bytes_witness :
  Wire.Uint8Array_of_Int16Array (Wire.decode_pairs [255; 255; 0; 128; 1; 0])
  = [255; 255; 0; 128; 1; 0].
Proof.
  apply (decoded_samples_keep_the_bytes [255; 255; 0; 128; 1; 0]); reflexivity.
Defined.

Lemma float32ToInt16_range (buffer : list Q) :
  Forall (fun v => -32768 <= v <= 32767) (ResamplerProcessor.float32ToInt16 buffer).
Proof.
  unfold ResamplerProcessor.float32ToInt16. apply Forall_map, Forall_forall.
  intros x _. unfold ResamplerProcessor.quantize, JS.Int16_store.
  pose proof (ToInt16_range (JS.truncate (JS.Math_min 1 x * 32767))). lia.
Qed.

(** X13.  Whatever one render quantum holds and whatever the two rates are,
    a frame the capture worklet posts has one sample per resampled sample
    and goes through the wire unchanged: the port handler's base64 text
    decodes, as a chunk is decoded, to the posted samples.  (No frame is
    posted when the resampler throws.) *)
Theorem captured_frame_survives_the_wire
        (sampleRate targetSampleRate : Q) (channel : list Q) (frame : list Z) :
  ResamplerProcessor.process sampleRate targetSampleRate (Some channel)
  = Some frame ->
  exists resampled text,
    ResamplerProcessor.resample channel sampleRate targetSampleRate
    = Some resampled
    /\ List.length frame = List.length resampled
    /\ Wire.encode_frame frame = Some text
    /\ Wire.decode_chunk text = Some frame.
Proof.
  cbn [ResamplerProcessor.process].
  destruct (ResamplerProcessor.resample _ _ _) as [resampled|]; [|discriminate].
  intros H. injection H as <-.
  set (frame := ResamplerProcessor.float32ToInt16 resampled).
  destruct (atob_btoa _ (Uint8Array_bytes frame)) as (text & Enc & Dec).
  exists resampled, text. split; [reflexivity|].
  split; [apply length_map|]. split; [exact Enc|].
  unfold Wire.decode_chunk. rewrite Dec.
  now rewrite (decode_pairs_bytes frame (float32ToInt16_range _)).
Qed.

Lemma captured_frame_survives_the_wire_witness :
  exists text,
    Wire.encode_frame [32767; -16383] = Some text
    /\ Wire.decode_chunk text = Some [32767; -16383].
Proof.
  destruct (captured_frame_survives_the_wire
              48000 16000 [1; -1; 1 # 2; -1 # 2; 1; 0]%Q [32767; -16383]
              ltac:(vm_compute; reflexivity))
    as (resampled & text & _ & _ & Enc & Dec).
  exists text. split; [exact Enc | exact Dec].
Defined.

(** ** The shape of the quantizer and of the dequantizer *)

Lemma truncate_opp (y : Q) : JS.truncate (- y) = - JS.truncate y.
Proof.
  destruct y as [a b]. unfold JS.truncate. cbn [Qopp Qnum Qden].
  apply Z.quot_opp_l. discriminate.
Qed.

Lemma truncate_mono (x y : Q) : (x <= y)%Q -> JS.truncate x <= JS.truncate y.
Proof.
  intros H.
  destruct (Qlt_le_dec x 0) as [Nx|Px], (Qlt_le_dec y 0) as [Ny|Py].
  - rewrite !truncate_nonpos by lra. now apply Qceiling_resp_le.
  - destruct (truncate_spec x) as [_ Sx], (truncate_spec y) as [Sy _].
    destruct Sx as [_ A]; [lra|]. destruct Sy as [_ B]; [lra|].
    assert (inject_Z (JS.truncate x) < inject_Z 1)%Q as C
      by (change (inject_Z 1) with 1%Q; lra).
    assert (inject_Z (-1) < inject_Z (JS.truncate y))%Q as C'
      by (change (inject_Z (-1)) with (-1 # 1)%Q; lra).
    apply inject_Z_lt_inv in C, C'. lia.
  - lra.
  - rewrite !truncate_nonneg by lra. now apply Qfloor_resp_le.
Qed.

Lemma quantize_no_wrap (x : Q) :
  (-1 <= x)%Q ->
  ResamplerProcessor.quantize x = JS.truncate (Qmin 1 x * 32767)
  /\ -32767 <= ResamplerProcessor.quantize x <= 32767.
Proof.
  intros Lo. unfold ResamplerProcessor.quantize, JS.Int16_store, JS.Math_min.
  assert (-1 <= Qmin 1 x <= 1)%Q as [A B].
  { split; [apply Q.min_glb; lra | apply Q.le_min_l]. }
  pose proof (truncate_bounded (Qmin 1 x * 32767) 32767 ltac:(lia)) as T.
  change (inject_Z 32767) with (32767 # 1)%Q in T.
  destruct T; [split; lra|].
  rewrite ToInt16_small by lia. split; [reflexivity | lia].
Qed.

(** X14.  The capture quantizer at and above -1: every sample from 1
    upwards saturates at 32767; on [-1, 1] the result stays within
    -32767..32767 and the quantizer is odd, so a signal and its inverse
    quantize to opposite values; and a larger sample never quantizes to a
    smaller value. *)
Theorem quantizer_saturates_is_odd_and_monotone :
  (forall x, (1 <= x)%Q -> ResamplerProcessor.quantize x = 32767)
  /\ (forall x, (-1 <= x <= 1)%Q ->
        ResamplerProcessor.quantize (- x) = - ResamplerProcessor.quantize x
        /\ -32767 <= ResamplerProcessor.quantize x <= 32767)
  /\ (forall x y, (-1 <= x)%Q -> (x <= y)%Q ->
        ResamplerProcessor.quantize x <= ResamplerProcessor.quantize y).
Proof.
  split; [|split].
  - intros x H. destruct (quantize_no_wrap x ltac:(lra)) as [E _]. rewrite E.
    assert (Qmin 1 x == 1)%Q as M by (apply Q.min_l; exact H).
    assert (Qmin 1 x * 32767 == 32767)%Q as M' by (rewrite M; reflexivity).
    rewrite (truncate_comp _ _ M'). reflexivity.
  - intros x [Lo Hi].
    destruct (quantize_no_wrap x Lo) as [E R].
    destruct (quantize_no_wrap (- x) ltac:(lra)) as [E' _].
    split; [|exact R]. rewrite E, E', <- truncate_opp.
    apply truncate_comp.
    assert (Qmin 1 x == x)%Q as M by (apply Q.min_r; exact Hi).
    assert (Qmin 1 (- x) == - x)%Q as M' by (apply Q.min_r; lra).
    rewrite M, M'. ring.
  - intros x y Lo Le.
    destruct (quantize_no_wrap x Lo) as [E _].
    destruct (quantize_no_wrap y ltac:(lra)) as [E' _].
    rewrite E, E'. apply truncate_mono.
    assert (Qmin 1 x <= Qmin 1 y)%Q as M.
    { apply Q.min_glb; [apply Q.le_min_l|].
      apply Qle_trans with x; [apply Q.le_min_r | exact Le]. }
    lra.
Qed.

Lemma quantizer_saturates_is_odd_and_monotone_witness :
  ResamplerProcessor.quantize (3 # 2) = 32767
  /\ ResamplerProcessor.quantize (- (1 # 3)) = - ResamplerProcessor.quantize (1 # 3)
  /\ ResamplerProcessor.quantize (- (1 # 2)) <= ResamplerProcessor.quantize (1 # 4).
Proof.
  destruct quantizer_saturates_is_odd_and_monotone as (Sat & Odd & Mono).
  split; [apply Sat; unfold Qle; simpl; lia|].
  split.
  - apply (Odd (1 # 3)%Q). split; unfold Qle; simpl; lia.
  - apply Mono; unfold Qle; simpl; lia.
Defined.

(** X15.  The playback dequantizer: whatever integer it is given, the
    result lies in [-1, 1]; on 16-bit samples it is below 1 and strictly
    increasing, so distinct samples stay distinct. *)
Theorem dequantizer_is_bounded_and_increasing :
  (forall q, (-1 <= PCMPlayer.dequantize q <= 1)%Q)
  /\ (forall q, -32768 <= q <= 32767 -> (PCMPlayer.dequantize q < 1)%Q)
  /\ (forall q1 q2, -32768 <= q1 -> q1 < q2 -> q2 <= 32767 ->
        (PCMPlayer.dequantize q1 < PCMPlayer.dequantize q2)%Q).
Proof.
  assert (forall q, (Spec.dequantize q == inject_Z q * (1 # 32768))%Q) as D
    by (intros q; reflexivity).
  split; [|split].
  - intros q. unfold PCMPlayer.dequantize, JS.Math_max, JS.Math_min. split.
    + apply Q.le_max_l.
    + apply Q.max_lub; [lra | apply Q.le_min_l].
  - intros q R. rewrite (dequantize_exact q R), D.
    destruct R as [_ Hi]. rewrite Zle_Qle in Hi.
    change (inject_Z 32767) with (32767 # 1)%Q in Hi. lra.
  - intros q1 q2 Lo Lt Hi.
    rewrite (dequantize_exact q1) by lia. rewrite (dequantize_exact q2) by lia.
    rewrite !D. rewrite Zlt_Qlt in Lt. lra.
Qed.

Lemma dequantizer_is_bounded_and_increasing_witness :
  (PCMPlayer.dequantize 32767 < 1)%Q
  /\ (PCMPlayer.dequantize (-32768) < PCMPlayer.dequantize (-32767))%Q
  /\ (-1 <= PCMPlayer.dequantize (-40000))%Q.
Proof.
  destruct dequantizer_is_bounded_and_increasing as (B & U & I).
  split; [apply U; lia|]. split; [apply I; lia | apply B].
Defined.

(** ** The fallback of the playback resampler *)

(** X18.  The upper sample of the playback resampler is read as
    [input[idx + 1] || s0]: when that sample is exactly 0, although inside
    the input, it counts as missing, and the output is the lower sample
    (rounded as every stored value is), held, instead of a value on the way
    down to 0.  The position is the one the code computes: the index divided
    by the rounded ratio, rounded. *)
Theorem resampleLinear_holds_over_a_zero_sample
        (input : list Q) (Rin Rout : Q) (out : list Q) (i : nat) (v : Q) :
  PCMPlayer.resampleLinear input Rin Rout = Some out ->
  ~ (Rin == Rout)%Q ->
  (i < List.length out)%nat ->
  let low := Qfloor (Spec.position64 Rin Rout i) in
  JS.get input (low + 1) = Some v -> (v == 0)%Q ->
  (nth i out 0 == Float.fl32 (Float.fl64 (Spec.sample input low)))%Q.
Proof.
  intros R N Hi low G Z0.
  destruct (resampleLinear_inv input Rin Rout out R) as [[E _]|[_ [->| ->]]].
  - contradiction.
  - cbn in Hi. lia.
  - rewrite tabulate_length in Hi. rewrite tabulate_nth by exact Hi.
    destruct (resampleLinear_at_cases input Rin Rout i) as (_ & Zero & _).
    exact (Zero v G Z0).
Qed.

Lemma resampleLinear_holds_over_a_zero_sample_witness :
  exists out,
    PCMPlayer.resampleLinear [1; 0; 1]%Q 24000 48000 = Some out
    /\ (nth 1 out 0 == 1)%Q.
Proof.
  destruct (PCMPlayer.resampleLinear [1; 0; 1]%Q 24000 48000) as [out|] eqn:R;
    [|vm_compute in R; discriminate R].
  exists out. split; [reflexivity|].
  rewrite (resampleLinear_holds_over_a_zero_sample
             [1; 0; 1]%Q 24000 48000 out 1 0 R
             ltac:(intros E; vm_compute in E; discriminate)
             ltac:(vm_compute in R; injection R as <-; cbn; lia)
             ltac:(vm_compute; reflexivity) ltac:(reflexivity)).
  vm_compute. reflexivity.
Defined.

(** ** Ranges *)

Lemma or_else_within (lo hi : Q) (input : list Q) (k : Z) (d : Q) :
  Forall (within lo hi) input -> within lo hi d ->
  within lo hi (JS.or_else (JS.get input k) d).
Proof.
  intros F D. unfold JS.or_else, JS.get.
  destruct (k <? 0); [exact D|].
  destruct (nth_error input (Z.to_nat k)) as [x|] eqn:E; [|exact D].
  destruct (Qeq_bool x 0); [exact D|].
  rewrite Forall_forall in F. apply F. eapply nth_error_In. exact E.
Qed.

Lemma tabulate_Forall {A : Type} (P : A -> Prop) (n : Z) (f : Z -> A) :
  (forall i, P (f i)) -> Forall P (JS.tabulate n f).
Proof.
  intros H. unfold JS.tabulate. apply Forall_map, Forall_forall.
  intros i _. apply H.
Qed.

Lemma zero_within_unit : within (-1) 1 0.
Proof. split; lra. Qed.

(** What either loop stores is in [-1, 1] when the input is: the
    interpolated value lies between its two neighbours up to roundings that
    the store to binary32 absorbs. *)
Lemma resample_at_within (input : list Q) (ratio : Q) (i : Z) :
  Forall (within (-1) 1) input ->
  within (-1) 1 (ResamplerProcessor.resample_at input ratio i).
Proof.
  intros F. unfold ResamplerProcessor.resample_at, JS.Float32_store, JS.Math_floor.
  apply interpolation_in_unit_range.
  - apply or_else_within; [exact F | exact zero_within_unit].
  - apply or_else_within; [exact F | exact zero_within_unit].
  - apply rounded_fraction.
Qed.

Lemma resampleLinear_at_within (input : list Q) (ratio : Q) (i : Z) :
  Forall (within (-1) 1) input ->
  within (-1) 1 (PCMPlayer.resampleLinear_at input ratio i).
Proof.
  intros F. unfold PCMPlayer.resampleLinear_at, JS.Float32_store, JS.Math_floor.
  assert (within (-1) 1
            (JS.or_else (JS.get input (Qfloor (Float.fl64 (inject_Z i / ratio)))) 0))
    as S0 by (apply or_else_within; [exact F | exact zero_within_unit]).
  apply interpolation_in_unit_range.
  - exact S0.
  - apply or_else_within; [exact F | exact S0].
  - apply rounded_fraction.
Qed.

Lemma resample_within (input : list Q) (Rin Rout : Q) (out : list Q) :
  ResamplerProcessor.resample input Rin Rout = Some out ->
  Forall (within (-1) 1) input -> Forall (within (-1) 1) out.
Proof.
  intros R F.
  destruct (resample_inv input Rin Rout out R) as [[_ ->]|[_ [->| ->]]].
  - exact F.
  - constructor.
  - apply tabulate_Forall. intros i. now apply resample_at_within.
Qed.

Lemma resampleLinear_within (input : list Q) (Rin Rout : Q) (out : list Q) :
  PCMPlayer.resampleLinear input Rin Rout = Some out ->
  Forall (within (-1) 1) input -> Forall (within (-1) 1) out.
Proof.
  intros R F.
  destruct (resampleLinear_inv input Rin Rout out R) as [[_ ->]|[_ [->| ->]]].
  - exact F.
  - constructor.
  - apply tabulate_Forall. intros i. now apply resampleLinear_at_within.
Qed.

(** X19.  When every sample of a render quantum lies in [-1, 1], so does
    every sample of the array the resampler returns, whatever the two rates;
    the frame the capture worklet posts is then the two-sided clamp
    quantization of the resampled samples, each value within -32767..32767:
    no sample wraps around. *)
Theorem capture_does_not_wrap_on_unit_input
        (sampleRate targetSampleRate : Q) (channel resampled : list Q) :
  Forall (fun x => (-1 <= x <= 1)%Q) channel ->
  ResamplerProcessor.resample channel sampleRate targetSampleRate
  = Some resampled ->
  Forall (fun x => (-1 <= x <= 1)%Q) resampled
  /\ ResamplerProcessor.process sampleRate targetSampleRate (Some channel)
     = Some (map Spec.quantize resampled)
  /\ Forall (fun q => -32767 <= q <= 32767) (map Spec.quantize resampled).
Proof.
  intros F Res.
  assert (Forall (within (-1) 1) resampled) as R
    by (exact (resample_within _ _ _ _ Res F)).
  split; [exact R|].
  assert (ResamplerProcessor.float32ToInt16 resampled
          = map Spec.quantize resampled) as E.
  { unfold ResamplerProcessor.float32ToInt16. apply map_ext_Forall.
    eapply Forall_impl; [|exact R]. intros x [Lo _].
    now apply quantize_clamps_above_minus_one. }
  split.
  { cbn [ResamplerProcessor.process]. rewrite Res. now rewrite E. }
  rewrite <- E. unfold ResamplerProcessor.float32ToInt16.
  apply Forall_map. eapply Forall_impl; [|exact R]. intros x [Lo _].
  now destruct (quantize_no_wrap x Lo).
Qed.

Lemma capture_does_not_wrap_on_unit_input_witness :
  exists resampled,
    ResamplerProcessor.resample [1; -1; 1 # 2; -1; 1; 1 # 4; 0]%Q 48000 16000
    = Some resampled
    /\ ResamplerProcessor.process 48000 16000
         (Some [1; -1; 1 # 2; -1; 1; 1 # 4; 0]%Q)
       = Some (map Spec.quantize resampled)
    /\ map Spec.quantize resampled = [32767; -32767].
Proof.
  destruct (ResamplerProcessor.resample
              [1; -1; 1 # 2; -1; 1; 1 # 4; 0]%Q 48000 16000)
    as [resampled|] eqn:R; [|vm_compute in R; discriminate R].
  exists resampled. split; [reflexivity|].
  split.
  - apply (capture_does_not_wrap_on_unit_input
             48000 16000 [1; -1; 1 # 2; -1; 1; 1 # 4; 0]%Q resampled).
    + repeat constructor; unfold Qle; simpl; lia.
    + exact R.
  - vm_compute in R. injection R as <-. vm_compute. reflexivity.
Defined.

Lemma dequantize_within (q : Z) : within (-1) 1 (PCMPlayer.dequantize q).
Proof.
  unfold within, PCMPlayer.dequantize, JS.Math_max, JS.Math_min. split.
  - apply Q.le_max_l.
  - apply Q.max_lub; [lra | apply Q.le_min_l].
Qed.

Lemma Forall_firstn_skipn {A : Type} (P : A -> Prop) (n : nat) (l : list A) :
  Forall P l -> Forall P (firstn n l) /\ Forall P (skipn n l).
Proof.
  intros F. rewrite <- (firstn_skipn n l) in F. now apply Forall_app in F.
Qed.

(** X20.  The playback buffer only ever holds samples of [-1, 1], and so
    does every block written to the output: starting from such a buffer
    (the empty one of the constructor, for instance), whatever chunks of
    16-bit integers arrive, at whatever rates, and whenever the output
    callbacks run. *)
Theorem playback_stays_in_unit_range
        (sampleRate : Q) (evs : list PCMPlayer.event) (st : PCMPlayer.state) :
  Forall (fun x => (-1 <= x <= 1)%Q) (PCMPlayer.buffer st) ->
  Forall (fun o => Forall (fun x => (-1 <= x <= 1)%Q) (PCMPlayer.block o))
         (fst (PCMPlayer.run sampleRate evs st))
  /\ Forall (fun x => (-1 <= x <= 1)%Q)
            (PCMPlayer.buffer (snd (PCMPlayer.run sampleRate evs st))).
Proof.
  change (fun x => (-1 <= x <= 1)%Q) with (within (-1) 1).
  revert st. induction evs as [|e evs IH]; intros st F.
  - split; [constructor | exact F].
  - destruct e as [m|n]; cbn [PCMPlayer.run].
    + apply IH. destruct m as [d| |]; cbn [PCMPlayer.onmessage]; try exact F.
      destruct (PCMPlayer.resampleLinear _ _ _) as [res|] eqn:R; [|exact F].
      unfold PCMPlayer.enqueue. cbn [PCMPlayer.buffer].
      apply Forall_app. split; [exact F|].
      apply (resampleLinear_within _ _ _ _ R).
      apply Forall_map, Forall_forall. intros q _. apply dequantize_within.
    + unfold PCMPlayer.process.
      destruct (Forall_firstn_skipn _ n _ F) as [Ff Fs].
      destruct (n <=? List.length (PCMPlayer.buffer st))%nat.
      * specialize (IH (PCMPlayer.mk (PCMPlayer.inputRate st)
                          (skipn n (PCMPlayer.buffer st)) (PCMPlayer.ended st)) Fs).
        destruct (PCMPlayer.run sampleRate evs _) as [os st2].
        destruct IH as [I1 I2]. split; [|exact I2].
        constructor; [exact Ff | exact I1].
      * specialize (IH (PCMPlayer.mk (PCMPlayer.inputRate st) [] false)
                       (Forall_nil _)).
        destruct (PCMPlayer.run sampleRate evs _) as [os st2].
        destruct IH as [I1 I2]. split; [|exact I2].
        constructor; [|exact I1]. cbn [PCMPlayer.block].
        apply Forall_app. split; [exact F|].
        apply Forall_forall. intros x Hx. apply repeat_spec in Hx. subst x.
        split; lra.
Qed.

Lemma playback_stays_in_unit_range_witness :
  Forall (fun o => Forall (fun x => (-1 <= x <= 1)%Q) (PCMPlayer.block o))
         (fst (PCMPlayer.run 48000
                 [PCMPlayer.message (PCMPlayer.chunk [32767; -32768; 0; 12345]);
                  PCMPlayer.render 3; PCMPlayer.render 3; PCMPlayer.render 3]
                 (PCMPlayer.new 24000))).
Proof.
  apply (playback_stays_in_unit_range 48000
           [PCMPlayer.message (PCMPlayer.chunk [32767; -32768; 0; 12345]);
            PCMPlayer.render 3; PCMPlayer.render 3; PCMPlayer.render 3]
           (PCMPlayer.new 24000)).
  constructor.
Defined.

(** X21.  One output callback, whatever the buffer holds: the block has
    exactly the requested number of samples, and the block followed by what
    stays in the buffer is what was in the buffer followed by the zeros
    that made up the shortfall; samples leave in the order they were
    enqueued and none is dropped or repeated. *)
Theorem process_fills_the_block_in_order (n : nat) (st : PCMPlayer.state) :
  let o := fst (PCMPlayer.process n st) in
  let st' := snd (PCMPlayer.process n st) in
  List.length (PCMPlayer.block o) = n
  /\ PCMPlayer.block o ++ PCMPlayer.buffer st'
     = PCMPlayer.buffer st
       ++ repeat 0%Q (n - List.length (PCMPlayer.buffer st))
  /\ List.length (PCMPlayer.buffer st')
     = (List.length (PCMPlayer.buffer st) - n)%nat
  /\ PCMPlayer.inputRate st' = PCMPlayer.inputRate st.
Proof.
  cbv zeta.
  destruct (Nat.le_gt_cases n (List.length (PCMPlayer.buffer st))) as [F|U].
  - rewrite process_full_block by exact F. cbn [fst snd PCMPlayer.block
      PCMPlayer.buffer PCMPlayer.inputRate].
    rewrite firstn_skipn, length_firstn, length_skipn.
    replace (n - List.length (PCMPlayer.buffer st))%nat with 0%nat by lia.
    cbn [repeat]. rewrite app_nil_r. repeat split. lia.
  - rewrite process_underrun by exact U. cbn [fst snd PCMPlayer.block
      PCMPlayer.buffer PCMPlayer.inputRate List.length].
    rewrite app_nil_r, length_app, repeat_length. repeat split; lia.
Qed.

(** ** The presentation components *)

Lemma reachable_handles_consistent (s : Session.t) :
  Session.reachable s -> Lifecycle.handles_consistent s = true.
Proof.
  induction 1 as [|e s R IH]; [reflexivity|].
  now apply handles_consistent_step.
Qed.

(** X22.  What the waveform shows follows the session: in every reachable
    state, once the canvas is mounted, the watcher draws the playback tap
    when [status] is [speaking], the capture tap when it is [listening], and
    clears the canvas in every other status; the tap it needs is never
    missing.  Without a canvas it does nothing. *)
Theorem waveform_follows_status (s : Session.t) :
  Session.reachable s ->
  UI.watcher true (UI.waveform_props s)
  = match Session.status s with
    | Session.speaking => UI.ai_waveform
    | Session.listening => UI.user_waveform
    | _ => UI.cleared
    end
  /\ UI.watcher false (UI.waveform_props s) = UI.nothing.
Proof.
  intros R. pose proof (reachable_handles_consistent s R) as H.
  destruct s as [st fa ua aa so ac usn uwn ms twn lk pl tr].
  destruct st, ua, aa, usn, uwn, twn, pl, ms as [m|];
    cbv in H; try discriminate H; split; reflexivity.
Qed.

Lemma waveform_follows_status_witness :
  UI.watcher true
    (UI.waveform_props
       (Session.run [Session.toggle; Session.opened true;
                     Session.message (Session.tts_chunk "AAABAA==")]
                    Session.init))
  = UI.ai_waveform.
Proof.
  apply (proj1 (waveform_follows_status
                  (Session.run [Session.toggle; Session.opened true;
                                Session.message (Session.tts_chunk "AAABAA==")]
                               Session.init)
                  (reachable_run _ _ Session.reachable_init))).
Defined.

(** X23.  Every click on the control button flips its icon: on [Mic] (the
    session is [idle]) the click starts a session and the icon becomes
    [Power]; on [Power] (any other status) the click stops the session and
    the icon becomes [Mic]. *)
Theorem click_flips_the_icon (s : Session.t) :
  UI.icon (UI.click s)
  = match UI.icon s with
    | UI.Mic => UI.Power
    | UI.Power => UI.Mic
    end.
Proof.
  unfold UI.icon, UI.click, Session.toggleSession.
  destruct (Session.Status_eqb (Session.status s) Session.idle) eqn:E.
  - unfold Session.startSession. rewrite E. reflexivity.
  - apply Status_eqb_neq in E. now rewrite (stopSession_releases s E).
Qed.

(** X24.  The five status titles are pairwise different, so the title
    tells the status; and the disclaimer under the title is rendered exactly
    when the session is [idle]. *)
Theorem titles_tell_the_status (s1 s2 : Session.t) :
  (UI.statusText s1 = UI.statusText s2 -> Session.status s1 = Session.status s2)
  /\ UI.subtitle_rendered (UI.statusSubtitle s1)
     = Session.Status_eqb (Session.status s1) Session.idle.
Proof.
  unfold UI.statusText, UI.statusSubtitle. split.
  - destruct (Session.status s1), (Session.status s2); intros E;
      try reflexivity; discriminate E.
  - destruct (Session.status s1); reflexivity.
Qed.

Lemma titles_tell_the_status_witness :
  Session.status (Session.step Session.toggle Session.init)
  = Session.status (Session.set_sttLocked true
                      (Session.step Session.toggle Session.init)).
Proof.
  apply (proj1 (titles_tell_the_status
                  (Session.step Session.toggle Session.init)
                  (Session.set_sttLocked true
                     (Session.step Session.toggle Session.init)))).
  reflexivity.
Defined.

(** *** One frame of the waveform *)

Lemma dataIndex_in_range (L bars i : Z) :
  0 < L -> 0 <= i < bars ->
  0 <= UI.dataIndex L bars i < L.
Proof.
  intros HL [Hi Hb]. unfold UI.dataIndex, JS.Math_floor.
  set (x := (inject_Z i * (inject_Z L / inject_Z bars) * (9 # 10))%Q).
  assert (0 < inject_Z bars)%Q as PB
    by (change 0%Q with (inject_Z 0); rewrite <- Zlt_Qlt; lia).
  assert (0 <= inject_Z i)%Q as PI
    by (change 0%Q with (inject_Z 0); rewrite <- Zle_Qle; lia).
  assert (inject_Z i < inject_Z bars)%Q as IB by (rewrite <- Zlt_Qlt; lia).
  assert (1 <= inject_Z L)%Q as PL
    by (change 1%Q with (inject_Z 1); rewrite <- Zle_Qle; lia).
  assert (x == inject_Z i * inject_Z L * (9 # 10) / inject_Z bars)%Q as E
    by (unfold x; field; lra).
  assert (0 <= x)%Q as X0.
  { rewrite E. apply Qle_shift_div_l; [exact PB|]. nra. }
  assert (x < inject_Z L)%Q as X1.
  { rewrite E. apply Qlt_shift_div_r; [exact PB|]. nra. }
  split.
  - change 0 with (Qfloor 0). now apply Qfloor_resp_le.
  - apply inject_Z_lt_inv. pose proof (Qfloor_le x). lra.
Qed.

Lemma tabulate_indices (bars i : Z) :
  In i (JS.tabulate bars (fun i => i)) -> 0 <= i < bars.
Proof.
  unfold JS.tabulate. intros H. apply in_map_iff in H.
  destruct H as (k & <- & Hk). apply in_seq in Hk. lia.
Qed.

Lemma columns_defined (w h : Q) (dataArray : list Z) (bars : Z) (indices : list Z) :
  dataArray <> [] ->
  (forall i, In i indices -> 0 <= i < bars) ->
  exists drawn, UI.columns w h dataArray bars indices = Some drawn.
Proof.
  intros NE. induction indices as [|i rest IH]; intros Hin.
  - now exists [].
  - destruct IH as [drawn D]; [intros k Hk; apply Hin; now right|].
    cbn [UI.columns]. rewrite D.
    assert (0 < Z.of_nat (List.length dataArray)) as HL
      by (destruct dataArray; [now elim NE | cbn [List.length]; lia]).
    pose proof (dataIndex_in_range _ bars i HL (Hin i (or_introl eq_refl))) as R.
    unfold JS.get.
    destruct (Z.ltb_spec (UI.dataIndex (Z.of_nat (List.length dataArray)) bars i) 0);
      [lia|].
    destruct (nth_error dataArray _) as [v|] eqn:E.
    + eexists. reflexivity.
    + apply nth_error_None in E. lia.
Qed.

(** X25.  One animation frame of the waveform never reads outside the
    frequency data: for every column [i] of the [barsToDraw] columns the
    index [floor(i * (bufferLength / barsToDraw) * 0.9)] is a valid index,
    so with a non-empty data array, whatever the canvas size, every bar
    height is a number. *)
Theorem draw_reads_inside_the_data (w h : Q) (dataArray : list Z) :
  dataArray <> [] ->
  (exists drawn, UI.draw w h dataArray = Some drawn)
  /\ forall i, 0 <= i < UI.barsToDraw w ->
       0 <= UI.dataIndex (Z.of_nat (List.length dataArray)) (UI.barsToDraw w) i
         < Z.of_nat (List.length dataArray).
Proof.
  intros NE. split.
  - unfold UI.draw. cbv zeta. apply columns_defined; [exact NE|].
    apply tabulate_indices.
  - intros i Hi. apply dataIndex_in_range; [|exact Hi].
    destruct dataArray; [now elim NE | cbn [List.length]; lia].
Qed.

Lemma draw_reads_inside_the_data_witness :
  exists drawn, UI.draw 600 100 [0; 128; 255; 64] = Some drawn.
Proof.
  apply (proj1 (draw_reads_inside_the_data 600 100 [0; 128; 255; 64]
                  ltac:(discriminate))).
Defined.

Lemma drawRoundedBar_on_canvas (w h x y width height : Q) :
  ((0 < height)%Q -> UI.on_canvas w h (UI.mkBar x y width height)) ->
  Forall (UI.on_canvas w h) (UI.drawRoundedBar x y width height).
Proof.
  intros H. unfold UI.drawRoundedBar.
  destruct (Qle_bool height 0) eqn:E; [constructor|].
  constructor; [|constructor]. apply H.
  apply Qnot_le_lt. intros Le. apply Qle_bool_iff in Le. congruence.
Qed.

Lemma column_on_canvas (w h : Q) (i v : Z) :
  0 <= i -> ((inject_Z i + 1) * 10 <= w * (1 # 2) - 4)%Q -> 0 <= v <= 255 ->
  Forall (UI.on_canvas w h) (UI.column w h i v).
Proof.
  intros Hi Hw [V0 V1].
  assert (0 <= inject_Z i)%Q as PI
    by (change 0%Q with (inject_Z 0); rewrite <- Zle_Qle; lia).
  assert (0 <= inject_Z v)%Q as A0
    by (change 0%Q with (inject_Z 0); rewrite <- Zle_Qle; lia).
  assert (inject_Z v <= 255)%Q as A1
    by (change 255%Q with (inject_Z 255); rewrite <- Zle_Qle; lia).
  unfold UI.column. cbv zeta.
  (apply Forall_app; split;
   [|apply Forall_app; split; [|apply Forall_app; split]]);
    apply drawRoundedBar_on_canvas; intros P;
    unfold UI.on_canvas, UI.barSpacing, UI.barWidth, UI.spacing in *;
    cbn [UI.bar_x UI.bar_y UI.bar_width UI.bar_height];
    unfold Qdiv in *;
    change (/ 2)%Q with (1 # 2)%Q in *;
    change (/ 255)%Q with (1 # 255)%Q in *;
    change (/ (22 # 10))%Q with (10 # 22)%Q in *;
    assert (0 < h)%Q as PH
      by (destruct (Qlt_le_dec 0 h) as [Pos|Neg]; [exact Pos | exfalso; nra]);
    repeat split; nra.
Qed.

Lemma columns_on_canvas
      (w h : Q) (dataArray : list Z) (indices : list Z) (drawn : list UI.Bar) :
  Forall (fun v => 0 <= v <= 255) dataArray ->
  (forall i, In i indices -> 0 <= i < UI.barsToDraw w) ->
  UI.columns w h dataArray (UI.barsToDraw w) indices = Some drawn ->
  Forall (UI.on_canvas w h) drawn.
Proof.
  intros Bytes. revert drawn.
  induction indices as [|i rest IH]; intros drawn Hin D.
  - cbn in D. inversion D. constructor.
  - cbn [UI.columns] in D.
    destruct (JS.get dataArray _) as [v|] eqn:G; [|discriminate D].
    destruct (UI.columns w h dataArray (UI.barsToDraw w) rest) as [more|] eqn:M;
      [|discriminate D].
    inversion D; subst drawn. apply Forall_app. split.
    + destruct (Hin i (or_introl eq_refl)) as [I0 I1].
      apply column_on_canvas; [exact I0 | |].
      * pose proof (Qfloor_le ((w / 2 - UI.spacing) / UI.barSpacing)) as Fl.
        change (Qfloor ((w / 2 - UI.spacing) / UI.barSpacing))
          with (UI.barsToDraw w) in Fl.
        assert (inject_Z i + 1 <= inject_Z (UI.barsToDraw w))%Q as S.
        { change 1%Q with (inject_Z 1). rewrite <- inject_Z_plus, <- Zle_Qle. lia. }
        assert ((w / 2 - UI.spacing) / UI.barSpacing
                == (w * (1 # 2) - 4) * (1 # 10))%Q as E
          by (unfold UI.barSpacing, UI.barWidth, UI.spacing, Qdiv;
              change (/ 2)%Q with (1 # 2)%Q;
              change (/ (6 + 4))%Q with (1 # 10)%Q; ring).
        rewrite E in Fl. lra.
      * rewrite Forall_forall in Bytes. apply Bytes.
        unfold JS.get in G. destruct (_ <? 0); [discriminate G|].
        eapply nth_error_In. exact G.
    + apply (IH more); [|reflexivity]. intros k Hk. apply Hin. now right.
Qed.

(** X26.  One animation frame of the waveform stays on the canvas: for
    every canvas size and every array of frequency bytes (0..255), each bar
    the frame draws, upper bars and reflections, right and left of the
    centre, lies inside the canvas rectangle. *)
Theorem draw_stays_on_the_canvas
        (w h : Q) (dataArray : list Z) (drawn : list UI.Bar) :
  Forall (fun v => 0 <= v <= 255) dataArray ->
  UI.draw w h dataArray = Some drawn ->
  Forall (UI.on_canvas w h) drawn.
Proof.
  intros Bytes D. unfold UI.draw in D. cbv zeta in D.
  apply (columns_on_canvas w h dataArray
           (JS.tabulate (UI.barsToDraw w) (fun i => i)) drawn Bytes);
    [|exact D].
  apply tabulate_indices.
Qed.

Lemma draw_stays_on_the_canvas_witness :
  exists drawn,
    UI.draw 600 100 [255; 128; 0; 64] = Some drawn
    /\ Forall (UI.on_canvas 600 100) drawn.
Proof.
  destruct (columns_defined 600 100 [255; 128; 0; 64] (UI.barsToDraw 600)
              (JS.tabulate (UI.barsToDraw 600) (fun i => i))
              ltac:(discriminate) (tabulate_indices _)) as [drawn D].
  exists drawn. split; [exact D|].
  apply (draw_stays_on_the_canvas 600 100 [255; 128; 0; 64] drawn);
    [repeat constructor; lia | exact D].
Defined.
